(** * memote.support.thermodynamics: reversibility checks against eQuilibrator

    A shallow embedding of [src/memote/support/thermodynamics.py] and the
    properties of its three functions, [smallest_compound_ID],
    [get_equilibrator_rxn_string] and
    [find_incorrect_thermodynamic_reversibility].

    Python [str] values are [string]s (code points below 256).  The Python
    list objects, the only objects on which the module calls a mutating method
    ([sort], [append]), live in an explicit store and are passed by location;
    reactions and metabolites, whose attributes the module only reads, are
    records.  The eQuilibrator API is a parameter of the development, and so
    is the limit the interpreter puts on the digits [int] reads. *)

From Stdlib Require Import ZArith Ascii String.
From stdpp Require Import base tactics option list sorting strings gmap.

(** ** Python string primitives *)

Module PyStr.
Local Open Scope string_scope.
Local Open Scope Z_scope.

(** [sub in s] for strings. *)
Fixpoint str_in (sub s : string) : bool :=
  String.prefix sub s ||
  match s with
  | EmptyString => false
  | String _ s' => str_in sub s'
  end.

(** [s.lstrip(c)] for a one-character argument. *)
Fixpoint lstrip (c : ascii) (s : string) : string :=
  match s with
  | String a s' => if Ascii.eqb a c then lstrip c s' else s
  | EmptyString => EmptyString
  end.

(** [s.replace(old, new)] for a non-empty [old]: scan left to right; [skip]
    counts the characters of a match that are still to be dropped. *)
Fixpoint replace_from (old new : string) (skip : nat) (s : string) : string :=
  match s with
  | EmptyString => EmptyString
  | String a s' =>
      match skip with
      | S k => replace_from old new k s'
      | O =>
          if String.prefix old s
          then new ++ replace_from old new (Nat.pred (String.length old)) s'
          else String a (replace_from old new O s')
      end
  end.

(** [s.replace("", new)] puts [new] before every character and at the end. *)
Fixpoint intersperse (new s : string) : string :=
  match s with
  | EmptyString => new
  | String a s' => new ++ String a (intersperse new s')
  end.

Definition replace (old new s : string) : string :=
  match old with
  | EmptyString => intersperse new s
  | String _ _ => replace_from old new O s
  end.

(** The white space [int] skips around a literal: tab, line feed, vertical
    tab, form feed, carriage return and space, and of the code points from
    128 on the spaces U+0085 and U+00A0. *)
Definition is_space (a : ascii) : bool :=
  let n := nat_of_ascii a in
  ((9 <=? n) && (n <=? 13) || (n =? 32) || (n =? 133) || (n =? 160))%nat.

Definition digit_val (a : ascii) : option Z :=
  let n := nat_of_ascii a in
  if ((48 <=? n) && (n <=? 57))%nat then Some (Z.of_nat (n - 48)) else None.

Fixpoint all_space (s : string) : bool :=
  match s with
  | EmptyString => true
  | String a s' => is_space a && all_space s'
  end.

Fixpoint lstrip_space (s : string) : string :=
  match s with
  | String a s' => if is_space a then lstrip_space s' else s
  | EmptyString => EmptyString
  end.

(** The digits of a base-10 literal: an underscore is allowed between two
    digits, white space only at the end.  [prev] tells whether the previous
    character was a digit. *)
Fixpoint int_digits (acc : Z) (prev : bool) (s : string) : option Z :=
  match s with
  | EmptyString => if prev then Some acc else None
  | String a s' =>
      match digit_val a with
      | Some d => int_digits (10 * acc + d) true s'
      | None =>
          if Ascii.eqb a "_" then
            if prev then int_digits acc false s' else None
          else if prev && all_space s then Some acc else None
      end
  end.

(** [int] counts the digits of a literal (not its underscores) and refuses
    one of more than [sys.int_max_str_digits] digits.  The limit is a setting
    of the interpreter: 4300 unless set otherwise, 0 for none (as in every
    CPython older than the limit), and it is looked at only for a literal of
    more than 640 digits, the least limit that can be set. *)
Fixpoint count_digits (s : string) : nat :=
  match s with
  | EmptyString => O
  | String a s' =>
      match digit_val a with
      | Some _ => S (count_digits s')
      | None => count_digits s'
      end
  end.

Definition over_limit (max_str_digits n : nat) : bool :=
  ((640 <? n) && (0 <? max_str_digits) && (max_str_digits <? n))%nat.

Definition int_literal (max_str_digits : nat) (r : string) : option Z :=
  match int_digits 0 false r with
  | Some z => if over_limit max_str_digits (count_digits r) then None else Some z
  | None => None
  end.

(** [int(s)] in base 10, as Python 3 reads it: white space, a sign, digits
    with single underscores between them, white space.  [None] stands for
    [ValueError]. *)
Definition int (max_str_digits : nat) (s : string) : option Z :=
  match lstrip_space s with
  | String "+" r => int_literal max_str_digits r
  | String "-" r => Z.opp <$> int_literal max_str_digits r
  | r => int_literal max_str_digits r
  end.

(** The characters a literal that [int] reads is made of. *)
Definition int_char (a : ascii) : bool :=
  match digit_val a with
  | Some _ => true
  | None => Ascii.eqb a "_" || Ascii.eqb a "+" || Ascii.eqb a "-" || is_space a
  end.

Fixpoint int_chars (s : string) : bool :=
  match s with
  | EmptyString => true
  | String a s' => int_char a && int_chars s'
  end.

(** A token of a string after [replace old new]: [new] when the token is
    [old]. *)
Definition swap_token (old new t : string) : string :=
  if decide (t = old) then new else t.

(** What follows a token: nothing, or a space. *)
Definition token_end (r : string) : Prop := r = "" \/ exists r', r = String " " r'.

End PyStr.

(** ** Exceptions, the store of list objects and the state monad *)

Inductive exn : Type :=
  | ValueError
  | IndexError
  | OtherError (what : string).

Inductive result (A : Type) : Type :=
  | Ok (a : A)
  | Raise (e : exn).
Arguments Ok {A} a.
Arguments Raise {A} e.

(** A location is an index into the store. *)
Abbreviation loc := nat (only parsing).

(** The value of [met.annotation.get("kegg.compound")]: a [str], a [list] of
    [str] (held by reference) or anything else. *)
Inductive ann_value : Type :=
  | AnnStr (s : string)
  | AnnList (l : loc)
  | AnnOther.

Module Met.
Record t : Type := Build
  { id : string;
    name : option string;
    annotation : gmap string ann_value }.
End Met.

Module Rxn.
Record t : Type := Build
  { reaction : string;
    metabolites : list Met.t;
    reversibility : bool }.
End Rxn.

(** The list objects: lists of [str] (annotation values, [only_cIDs]) and
    lists of reactions ([reactions] and the four result lists). *)
Record store : Type := Store
  { str_lists : list (list string);
    rxn_lists : list (list Rxn.t) }.

Definition M (A : Type) : Type := store -> result A * store.

Definition ret {A} (a : A) : M A := fun st => (Ok a, st).

Definition bind {A B} (m : M A) (k : A -> M B) : M B :=
  fun st =>
    match m st with
    | (Ok a, st') => k a st'
    | (Raise e, st') => (Raise e, st')
    end.

Definition raise {A} (e : exn) : M A := fun st => (Raise e, st).

(** The result of a call into a library that keeps no list of ours. *)
Definition lift {A} (r : result A) : M A := fun st => (r, st).

(** [try: m / except Exception: ...]: the outcome of [m] as a value; what
    [m] wrote to the store before raising stays written. *)
Definition attempt {A} (m : M A) : M (result A) :=
  fun st => let '(r, st') := m st in (Ok r, st').

Declare Scope py_scope.
Delimit Scope py_scope with py.
Notation "x <- m ;; k" := (bind m (fun x => k))
  (at level 100, m at next level, right associativity) : py_scope.
Notation "m ;;; k" := (bind m (fun _ => k))
  (at level 100, right associativity) : py_scope.
Local Open Scope py_scope.

(** Reading a list object; a location outside the store cannot arise in
    Python and reads as the empty list. *)
Definition read_str_list (l : loc) : M (list string) :=
  fun st => (Ok (default [] (str_lists st !! l)), st).

Definition read_rxn_list (l : loc) : M (list Rxn.t) :=
  fun st => (Ok (default [] (rxn_lists st !! l)), st).

(** A new list object. *)
Definition new_str_list (xs : list string) : M loc :=
  fun st =>
    (Ok (length (str_lists st)),
     Store (str_lists st ++ [xs]) (rxn_lists st)).

Definition new_rxn_list (xs : list Rxn.t) : M loc :=
  fun st =>
    (Ok (length (rxn_lists st)),
     Store (str_lists st) (rxn_lists st ++ [xs])).

Definition write_str_list (l : loc) (xs : list string) : M unit :=
  fun st => (Ok tt, Store (<[l := xs]> (str_lists st)) (rxn_lists st)).

(** [l.append(r)] *)
Definition list_append (l : loc) (r : Rxn.t) : M unit :=
  fun st =>
    (Ok tt, Store (str_lists st) (alter (fun xs => xs ++ [r]) l (rxn_lists st))).

(** [for x in xs: body(x)], threading the loop-carried value [a]. *)
Fixpoint for_each {A B} (xs : list A) (body : A -> B -> M B) (b : B) : M B :=
  match xs with
  | [] => ret b
  | x :: xs' => b' <- body x b ;; for_each xs' body b'
  end.

(** Stable insertion of [(k, x)]: before the first entry whose key is not
    smaller. *)
Fixpoint insert_keyed {A} (k : Z) (x : A) (l : list (Z * A)) : list (Z * A) :=
  match l with
  | [] => [(k, x)]
  | (k', y) :: l' =>
      if (k <=? k')%Z then (k, x) :: l else (k', y) :: insert_keyed k x l'
  end.

Definition sort_keyed {A} (l : list (Z * A)) : list (Z * A) :=
  foldr (fun p acc => insert_keyed p.1 p.2 acc) [] l.

Definition key_le {A} (p q : Z * A) : Prop := (p.1 <= q.1)%Z.

(** [l.sort(key=key)]: every key is computed first; when one raises the list
    is left as it was, otherwise the list object is sorted in place, stably
    and ascending. *)
Definition list_sort (l : loc) (key : string -> option Z) : M unit :=
  xs <- read_str_list l ;;
  match mapM key xs with
  | None => raise ValueError
  | Some ks => write_str_list l (sort_keyed (zip ks xs)).*2
  end.

(** ** The interpreter and the eQuilibrator API *)

(** The one setting of the Python interpreter the module depends on:
    [sys.int_max_str_digits], through the [int] of [smallest_compound_ID]. *)
Class Interpreter : Type :=
  { int_max_str_digits : nat }.

Class Equilibrator : Type :=
  { DataFrame : Type;
    EqRxn : Type;
    Index : Type;
    (** [COMPOUND_MATCHER.match(name)] *)
    COMPOUND_MATCHER_match : string -> result DataFrame;
    (** [df['CID'].iloc[0]] *)
    CID_iloc0 : DataFrame -> result string;
    (** [Reaction.parse_formula(s)] *)
    parse_formula : string -> result EqRxn;
    (** [eq_rxn.check_full_reaction_balancing()] *)
    check_full_reaction_balancing : EqRxn -> bool;
    (** [eq_rxn.reversibility_index()] *)
    reversibility_index : EqRxn -> result Index;
    (** [ln_RI < lngamma] *)
    index_lt : Index -> Z -> bool }.

(** ** A small instance of the API and a model to run the module on *)

Module Demo.

(** The interpreter with its default limit. *)
#[export] Instance py : Interpreter :=
  {| int_max_str_digits := 4300 |}.

(** The compound matcher knows water; a name starting with [?] makes it
    raise.  A formula parses when no model identifier (with [_]) is left in
    it; [C00009] unbalances a reaction and [C00080] defeats the estimate. *)
#[export] Instance api : Equilibrator :=
  {| DataFrame := list string;
     EqRxn := string;
     Index := Z;
     COMPOUND_MATCHER_match name :=
       if PyStr.str_in "?" name then Raise (OtherError "match")
       else if String.eqb name "water" then Ok ["C00001"%string] else Ok [];
     CID_iloc0 df :=
       match df with c :: _ => Ok c | [] => Raise IndexError end;
     parse_formula s :=
       if PyStr.str_in "_" s then Raise (OtherError "parse") else Ok s;
     check_full_reaction_balancing eq_rxn := negb (PyStr.str_in "C00009" eq_rxn);
     reversibility_index eq_rxn :=
       if PyStr.str_in "C00080" eq_rxn then Raise (OtherError "dG0")
       else Ok (if PyStr.str_in "<=>" eq_rxn then 0%Z else 10%Z);
     index_lt := Z.ltb |}.

Definition kegg (v : ann_value) : gmap string ann_value :=
  {[ "kegg.compound"%string := v ]}.

Definition atp : Met.t := Met.Build "atp_c" (Some "ATP"%string) (kegg (AnnStr "C00002")).
Definition adp : Met.t := Met.Build "adp_c" (Some "ADP"%string) (kegg (AnnList 0)).
Definition h2o : Met.t := Met.Build "h2o_c" (Some "water"%string) ∅.
Definition h : Met.t := Met.Build "h_c" (Some "H+"%string) (kegg (AnnStr "C00080")).
Definition glc : Met.t := Met.Build "glc_c" (Some ""%string) (kegg (AnnStr "G10505")).
Definition nad : Met.t := Met.Build "nad_c" (Some "?nad"%string) (kegg (AnnList 2)).
Definition chebi : Met.t := Met.Build "x_c" (Some "x"%string) (kegg (AnnList 3)).
Definition ppi : Met.t := Met.Build "ppi_c" (Some "PPi"%string) (kegg (AnnStr "C00009")).

Definition st0 : store :=
  Store [ ["D00001"; "C00008"; "C00002"; "G00010"];
          ["CC9"; "C00009"; "C0_9"];
          ["D00002"; "G00003"];
          ["C00001"; "CHEBI:15377"] ]%string
        [].

(** agrees with the estimate *)
Definition r_ok : Rxn.t :=
  Rxn.Build "atp_c + h2o_c <=> adp_c" [atp; h2o; adp] true.
(** annotated irreversible, estimated reversible *)
Definition r_wrong : Rxn.t :=
  Rxn.Build "atp_c + h2o_c <=> adp_c" [atp; h2o; adp] false.
(** [glc_c] stays unmapped *)
Definition r_unmapped : Rxn.t :=
  Rxn.Build "atp_c + glc_c --> adp_c" [atp; glc; adp] false.
(** the list annotation of [x_c] makes [int] raise *)
Definition r_chebi : Rxn.t :=
  Rxn.Build "atp_c + x_c --> adp_c" [atp; chebi; adp] false.
Definition r_unbalanced : Rxn.t :=
  Rxn.Build "atp_c <-- adp_c + ppi_c" [atp; adp; ppi] false.
Definition r_nodG : Rxn.t :=
  Rxn.Build "atp_c --> adp_c + h_c" [atp; adp; h] false.

Definition model : list Rxn.t :=
  [r_wrong; r_ok; r_unmapped; r_chebi; r_unbalanced; r_nodG; r_wrong].

Definition st1 : store := Store (str_lists st0) [model].

(** a model with the one reaction that agrees *)
Definition st_ok : store := Store (str_lists st0) [[r_ok]].

(** [nadh_c] has no annotation and an empty name; its id holds the id of
    [h_c] *)
Definition nadh : Met.t := Met.Build "nadh_c" (Some ""%string) ∅.
Definition r_nadh : Rxn.t :=
  Rxn.Build "h_c + nadh_c --> nad_c" [h; nadh; nad] false.

(** neither metabolite can be mapped *)
Definition r_unmappable : Rxn.t :=
  Rxn.Build "glc_c --> nad_c" [glc; nad] false.

(** [model] and its two halves *)
Definition st_split : store :=
  Store (str_lists st0) [model; take 3 model; drop 3 model].

(** the matcher raises on the name of [nad_c] *)
Definition r_nad : Rxn.t :=
  Rxn.Build "atp_c + nad_c --> adp_c" [atp; nad; adp] false.



(** [adp_c] with a signed number among its compound IDs *)
Definition st_signed : store :=
  Store [["C00008"; "C-7"]%string] [[r_ok]].

End Demo.

(** ** The module *)

Section Thermodynamics.
Context `{PY : Interpreter} `{API : Equilibrator}.

Definition has_C (x : string) : bool := PyStr.str_in "C" x.

Definition cid_key (x : string) : option Z :=
  PyStr.int int_max_str_digits (PyStr.lstrip "C" x).

Definition smallest_compound_ID (kegg_ann_list : loc) : M loc :=
  xs <- read_str_list kegg_ann_list ;;
  only_cIDs <- new_str_list (filter (fun x => has_C x) xs) ;;
  list_sort only_cIDs cid_key ;;;
  ret only_cIDs.

(** The last branch of the loop body of [get_equilibrator_rxn_string]:
    [elif not getattr(met, "name"): continue / else: try ... except: pass]. *)
Definition match_by_name (met : Met.t) (kegg_rxn : string) : M string :=
  match Met.name met with
  | None | Some EmptyString => ret kegg_rxn
  | Some name =>
      r <- attempt (df <- lift (COMPOUND_MATCHER_match name) ;;
                    kegg_match_id <- lift (CID_iloc0 df) ;;
                    ret (PyStr.replace (Met.id met) kegg_match_id kegg_rxn)) ;;
      match r with
      | Ok kegg_rxn' => ret kegg_rxn'
      | Raise _ => ret kegg_rxn
      end
  end.

(** The loop body of [get_equilibrator_rxn_string]. *)
Definition map_metabolite (met : Met.t) (kegg_rxn : string) : M string :=
  match Met.annotation met !! "kegg.compound" with
  | Some (AnnStr kegg_ann_id) =>
      if has_C kegg_ann_id
      then ret (PyStr.replace (Met.id met) kegg_ann_id kegg_rxn)
      else match_by_name met kegg_rxn
  | Some (AnnList kegg_ann_id) =>
      xs <- read_str_list kegg_ann_id ;;
      if existsb has_C xs then
        sorted <- smallest_compound_ID kegg_ann_id ;;
        ys <- read_str_list sorted ;;
        match ys with
        | y :: _ => ret (PyStr.replace (Met.id met) y kegg_rxn)
        | [] => raise IndexError
        end
      else match_by_name met kegg_rxn
  | _ => match_by_name met kegg_rxn
  end.

Definition get_equilibrator_rxn_string (rxn : Rxn.t) : M string :=
  kegg_rxn <- for_each (Rxn.metabolites rxn) map_metabolite (Rxn.reaction rxn) ;;
  ret (PyStr.replace "<--" "<-" (PyStr.replace "-->" "->" kegg_rxn)).

(** The four result lists, in the order of the returned tuple. *)
Record buckets : Type := Buckets
  { incorrect_reversibility : loc;
    incomplete_mapping : loc;
    problematic_calculation : loc;
    unbalanced : loc }.

(** The loop body of [find_incorrect_thermodynamic_reversibility]. *)
Definition check_reaction (out : buckets) (lngamma : Z) (rxn : Rxn.t) : M unit :=
  r <- attempt (s <- get_equilibrator_rxn_string rxn ;; lift (parse_formula s)) ;;
  match r with
  | Raise _ => list_append (incomplete_mapping out) rxn
  | Ok eq_rxn =>
      if check_full_reaction_balancing eq_rxn then
        r' <- attempt (lift (reversibility_index eq_rxn)) ;;
        match r' with
        | Raise _ => list_append (problematic_calculation out) rxn
        | Ok ln_RI =>
            if negb (Bool.eqb (index_lt ln_RI lngamma) (Rxn.reversibility rxn))
            then list_append (incorrect_reversibility out) rxn
            else ret tt
        end
      else list_append (unbalanced out) rxn
  end.

(** [reactions] is read once: the loop body appends only to the four lists
    created here, so Python's index-based iteration over [reactions] visits
    the elements the list has at this point. *)
Definition find_incorrect_thermodynamic_reversibility
    (reactions : loc) (lngamma : Z) : M buckets :=
  incomplete_mapping <- new_rxn_list [] ;;
  problematic_calculation <- new_rxn_list [] ;;
  incorrect_reversibility <- new_rxn_list [] ;;
  unbalanced <- new_rxn_list [] ;;
  let out := Buckets incorrect_reversibility incomplete_mapping
                     problematic_calculation unbalanced in
  xs <- read_rxn_list reactions ;;
  for_each xs (fun rxn _ => check_reaction out lngamma rxn) tt ;;;
  ret out.

(** *** The behaviour in the words of the specification

    The functions below restate, without the store, what the specification
    says the module computes; [S] is the content of the [str] list objects
    when the call starts. *)

(** The first entry among those with the least key. *)
Fixpoint least_keyed {A} (l : list (Z * A)) : option (Z * A) :=
  match l with
  | [] => None
  | (k, x) :: l' =>
      match least_keyed l' with
      | Some (k', y) => if (k <=? k')%Z then Some (k, x) else Some (k', y)
      | None => Some (k, x)
      end
  end.

(** The smallest compound ID of an annotation list: among the entries that
    contain ['C'], the one with the least integer after the leading ['C']s;
    [ValueError] when one of these entries is no integer. *)
Definition smallest_cid (xs : list string) : result (option string) :=
  let cs := filter (fun x => has_C x) xs in
  match mapM cid_key cs with
  | None => Raise ValueError
  | Some ks => Ok (snd <$> least_keyed (zip ks cs))
  end.

(** The compound the matcher finds for the name of a metabolite, if any. *)
Definition name_match (met : Met.t) : option string :=
  match Met.name met with
  | None | Some EmptyString => None
  | Some name =>
      match COMPOUND_MATCHER_match name with
      | Ok df => match CID_iloc0 df with Ok cid => Some cid | Raise _ => None end
      | Raise _ => None
      end
  end.

(** The KEGG identifier of a metabolite by the first applicable rule. *)
Definition kegg_id (S : list (list string)) (met : Met.t) : result (option string) :=
  match Met.annotation met !! "kegg.compound" with
  | Some (AnnStr s) => if has_C s then Ok (Some s) else Ok (name_match met)
  | Some (AnnList l) =>
      let xs := default [] (S !! l) in
      if existsb has_C xs then smallest_cid xs else Ok (name_match met)
  | _ => Ok (name_match met)
  end.

Fixpoint map_ids (S : list (list string)) (mets : list Met.t) (s : string)
    : result string :=
  match mets with
  | [] => Ok s
  | met :: mets' =>
      match kegg_id S met with
      | Raise e => Raise e
      | Ok None => map_ids S mets' s
      | Ok (Some k) => map_ids S mets' (PyStr.replace (Met.id met) k s)
      end
  end.

Definition arrows (s : string) : string :=
  PyStr.replace "<--" "<-" (PyStr.replace "-->" "->" s).

Definition rxn_string (S : list (list string)) (rxn : Rxn.t) : result string :=
  match map_ids S (Rxn.metabolites rxn) (Rxn.reaction rxn) with
  | Ok s => Ok (arrows s)
  | Raise e => Raise e
  end.

Inductive outcome : Type :=
  | IncorrectReversibility
  | IncompleteMapping
  | ProblematicCalculation
  | Unbalanced
  | Agrees.

#[global] Instance outcome_eq_dec : EqDecision outcome.
Proof. solve_decision. Defined.

(** The three stages a reaction goes through. *)
Definition classify (S : list (list string)) (lngamma : Z) (rxn : Rxn.t) : outcome :=
  match rxn_string S rxn with
  | Raise _ => IncompleteMapping
  | Ok s =>
      match parse_formula s with
      | Raise _ => IncompleteMapping
      | Ok eq_rxn =>
          if check_full_reaction_balancing eq_rxn then
            match reversibility_index eq_rxn with
            | Raise _ => ProblematicCalculation
            | Ok ln_RI =>
                if negb (Bool.eqb (index_lt ln_RI lngamma) (Rxn.reversibility rxn))
                then IncorrectReversibility
                else Agrees
            end
          else Unbalanced
      end
  end.

(** A token of the reaction string after the mapping: the identifier chosen
    for the first metabolite with this id that has one, the token itself when
    there is none. *)
Fixpoint token_id (S : list (list string)) (mets : list Met.t) (t : string)
    : string :=
  match mets with
  | [] => t
  | met :: mets' =>
      if decide (t = Met.id met) then
        match kegg_id S met with
        | Ok (Some k) => k
        | _ => token_id S mets' t
        end
      else token_id S mets' t
  end.

(** An id that can stand as a token: not empty, no space. *)
Definition plain_id (s : string) : Prop :=
  s <> EmptyString /\ PyStr.str_in " " s = false.

(** No id of a metabolite is a proper part of a token. *)
Definition whole_tokens (ts : list string) (mets : list Met.t) : Prop :=
  Forall (fun t =>
            Forall (fun met => t = Met.id met \/
                               PyStr.str_in (Met.id met) t = false) mets) ts.

(** No identifier chosen for a metabolite holds the id of a metabolite that
    comes after it. *)
Fixpoint chosen_apart (S : list (list string)) (mets : list Met.t) : Prop :=
  match mets with
  | [] => True
  | met :: mets' =>
      (forall k, kegg_id S met = Ok (Some k) ->
                 Forall (fun met' => PyStr.str_in (Met.id met') k = false) mets')
      /\ chosen_apart S mets'
  end.

(** A token of the mapped string after the two arrow replacements. *)
Definition arrow_token (t : string) : string :=
  if decide (t = "-->"%string) then "->"%string
  else if decide (t = "<--"%string) then "<-"%string
  else t.

(** A token that is an arrow, or holds none. *)
Definition arrow_free (t : string) : Prop :=
  (t = "-->"%string \/ PyStr.str_in "-->" t = false) /\
  (t = "<--"%string \/ PyStr.str_in "<--" t = false).

(** The result list a stage outcome sends the reaction to. *)
Definition bucket_of (out : buckets) (o : outcome) : option loc :=
  match o with
  | IncorrectReversibility => Some (incorrect_reversibility out)
  | IncompleteMapping => Some (incomplete_mapping out)
  | ProblematicCalculation => Some (problematic_calculation out)
  | Unbalanced => Some (unbalanced out)
  | Agrees => None
  end.

Definition file_rxn (out : buckets) (o : outcome) (rxn : Rxn.t)
    (R : list (list Rxn.t)) : list (list Rxn.t) :=
  match bucket_of out o with
  | Some l => alter (fun xs => xs ++ [rxn]) l R
  | None => R
  end.

Definition use_id (met : Met.t) (s : string) (k : option string) : string :=
  match k with
  | Some k => PyStr.replace (Met.id met) k s
  | None => s
  end.

(** The position of an outcome's list in the returned tuple. *)
Definition outcome_index (o : outcome) : option nat :=
  match o with
  | IncorrectReversibility => Some 0%nat
  | IncompleteMapping => Some 1%nat
  | ProblematicCalculation => Some 2%nat
  | Unbalanced => Some 3%nat
  | Agrees => None
  end.

(** Every list an annotation refers to is in the store. *)
Definition wf_met (S : list (list string)) (met : Met.t) : Prop :=
  match Met.annotation met !! "kegg.compound" with
  | Some (AnnList l) => (l < length S)%nat
  | _ => True
  end.

Definition wf_rxn (S : list (list string)) (rxn : Rxn.t) : Prop :=
  Forall (wf_met S) (Rxn.metabolites rxn).

#[global] Instance wf_met_dec S met : Decision (wf_met S met).
Proof. unfold wf_met. repeat case_match; apply _. Defined.

#[global] Instance wf_rxn_dec S rxn : Decision (wf_rxn S rxn).
Proof. unfold wf_rxn. apply _. Defined.

(** The content of a list object in a store. *)
Definition rxns_at (st : store) (l : loc) : list Rxn.t :=
  default [] (rxn_lists st !! l).

Definition strs_at (st : store) (l : loc) : list string :=
  default [] (str_lists st !! l).

(** [st'] has every list object of [st], unchanged, and possibly new ones. *)
Definition extends (st st' : store) : Prop :=
  str_lists st `prefix_of` str_lists st' /\
  rxn_lists st `prefix_of` rxn_lists st'.

(** A call that only adds [str] list objects. *)
Definition adds_strs {A} (m : M A) (st : store) : Prop :=
  exists junk, (m st).2 = Store (str_lists st ++ junk) (rxn_lists st).

(** Where the result lists are created, and what they hold at the end. *)
Definition result_locs (n : nat) : buckets := Buckets (2 + n) n (1 + n) (3 + n).

Definition result_lists (f : Rxn.t -> outcome) (xs : list Rxn.t)
    : list (list Rxn.t) :=
  [filter (fun r => f r = IncompleteMapping) xs;
   filter (fun r => f r = ProblematicCalculation) xs;
   filter (fun r => f r = IncorrectReversibility) xs;
   filter (fun r => f r = Unbalanced) xs].

(** The outcome of the first stage on [rxn], run in [st]. *)
Definition mapped_formula (st : store) (rxn : Rxn.t) : result string :=
  (get_equilibrator_rxn_string rxn st).1.

Definition parsed (st : store) (rxn : Rxn.t) : result EqRxn :=
  match mapped_formula st rxn with
  | Ok s => parse_formula s
  | Raise e => Raise e
  end.

(** The first stage raises on [rxn]: building the string or parsing it. *)
Definition mapping_fails (st : store) (rxn : Rxn.t) : bool :=
  match parsed st rxn with
  | Raise _ => true
  | Ok _ => false
  end.

(** All three stages succeed on [rxn] and the estimate agrees with the
    annotated reversibility. *)
Definition agrees (st : store) (lngamma : Z) (rxn : Rxn.t) : Prop :=
  exists eq_rxn ln_RI,
    parsed st rxn = Ok eq_rxn /\
    check_full_reaction_balancing eq_rxn = true /\
    reversibility_index eq_rxn = Ok ln_RI /\
    index_lt ln_RI lngamma = Rxn.reversibility rxn.

(** Ascending order of the keys of compound IDs. *)
Definition cid_le (a b : string) : Prop :=
  exists ka kb, cid_key a = Some ka /\ cid_key b = Some kb /\ (ka <= kb)%Z.

(** An entry of an annotation list paired with its key. *)
Definition keyed (p : Z * string) : Prop := cid_key p.2 = Some p.1.

(** The metabolite has no annotation that the first two rules accept. *)
Definition no_usable_annotation (st : store) (met : Met.t) : Prop :=
  match Met.annotation met !! "kegg.compound" with
  | Some (AnnStr a) => has_C a = false
  | Some (AnnList l) => existsb has_C (strs_at st l) = false
  | _ => True
  end.

(** The name is falsy, or looking it up raises. *)
Definition name_lookup_fails (met : Met.t) : Prop :=
  match Met.name met with
  | None | Some EmptyString => True
  | Some name =>
      match COMPOUND_MATCHER_match name with
      | Raise _ => True
      | Ok df => exists e, CID_iloc0 df = Raise e
      end
  end.

(** [rxn] is in exactly one of the lists [ls]. *)
Definition in_exactly_one (rxn : Rxn.t) (ls : list (list Rxn.t)) : Prop :=
  exists i l, ls !! i = Some l /\ rxn ∈ l /\
    forall j l', ls !! j = Some l' -> rxn ∈ l' -> j = i.

(** The four lists a call returned, in the order of the tuple. *)
Definition returned (st' : store) (out : buckets) : list (list Rxn.t) :=
  [rxns_at st' (incorrect_reversibility out);
   rxns_at st' (incomplete_mapping out);
   rxns_at st' (problematic_calculation out);
   rxns_at st' (unbalanced out)].

(** *** KEGG identifiers, and further notions *)

(** A KEGG identifier as the docstring of [smallest_compound_ID] has it: one
    of the letters C, D, G followed by digits (here: at least one). *)
Definition is_digit (a : ascii) : bool :=
  match PyStr.digit_val a with Some _ => true | None => false end.

Fixpoint all_digits (s : string) : bool :=
  match s with
  | EmptyString => true
  | String a s' => is_digit a && all_digits s'
  end.

Definition kegg_shaped (x : string) : bool :=
  match x with
  | String c (String d ds) =>
      (Ascii.eqb c "C" || Ascii.eqb c "D" || Ascii.eqb c "G")
      && all_digits (String d ds)
  | _ => false
  end.

(** An entry that is ['C'] followed by digits, and nothing else. *)
Definition c_then_digits (x : string) : bool :=
  match x with
  | String c (String d ds) => Ascii.eqb c "C" && all_digits (String d ds)
  | _ => false
  end.

(** [int] reads the number of [x]: its digits are within the limit. *)
Definition int_reads (x : string) : bool :=
  negb (PyStr.over_limit int_max_str_digits (PyStr.count_digits x)).

Definition kegg_identifier (x : string) : bool := kegg_shaped x && int_reads x.

(** The number such an identifier carries. *)
Fixpoint digits_value (acc : Z) (s : string) : Z :=
  match s with
  | EmptyString => acc
  | String a s' => digits_value (10 * acc + default 0%Z (PyStr.digit_val a)) s'
  end.

Definition kegg_number (x : string) : Z :=
  match x with
  | String _ ds => digits_value 0 ds
  | EmptyString => 0%Z
  end.

(** No identifier chosen for a metabolite holds the id of any metabolite. *)
Definition apart_all (S : list (list string)) (mets : list Met.t) : Prop :=
  Forall (fun met =>
            forall k, kegg_id S met = Ok (Some k) ->
                      Forall (fun met' => PyStr.str_in (Met.id met') k = false)
                             mets) mets.

(** [rxn] with other metabolites, or with the other reversibility. *)
Definition with_metabolites (rxn : Rxn.t) (mets : list Met.t) : Rxn.t :=
  Rxn.Build (Rxn.reaction rxn) mets (Rxn.reversibility rxn).

Definition flipped (rxn : Rxn.t) : Rxn.t :=
  Rxn.Build (Rxn.reaction rxn) (Rxn.metabolites rxn)
            (negb (Rxn.reversibility rxn)).

(** Every entry of a list annotation of the metabolite is a KEGG
    identifier. *)
Definition kegg_annotated (st : store) (met : Met.t) : Prop :=
  match Met.annotation met !! "kegg.compound" with
  | Some (AnnList l) => Forall (fun x => kegg_identifier x = true) (strs_at st l)
  | _ => True
  end.

End Thermodynamics.

(** ** Facts about the string primitives *)

Module PyStrFacts.
Import PyStr.

Example int_examples :
  let int := int 4300 in
  (int " 12 ", int "1_0", int "1__0", int "-7", int "+ 7", int "", int "12_",
   int "1 2", int (lstrip "C" "C00001"), int (lstrip "C" "CHEBI:17234"))
  = (Some 12, Some 10, None, Some (-7), None, None, None, None, Some 1, None)%Z.
Proof. reflexivity. Qed.

(** The limit on the digits: leading zeros count, underscores do not, and
    with the limit 0 every literal is read. *)
Example int_limit_examples :
  let zeros n := String.concat "" (replicate n "0") in
  (int 4300 (zeros 4300 ++ " "), int 4300 (zeros 4301),
   int 4300 ("-" ++ zeros 4301), int 4300 ("0_" ++ zeros 4299),
   int 4300 ("0_" ++ zeros 4300), int 0 (zeros 4301),
   int 640 (zeros 640), int 640 (zeros 641))%string
  = (Some 0, None, None, Some 0, None, Some 0, Some 0, None)%Z.
Proof. vm_compute. reflexivity. Qed.

Example replace_examples :
  (replace "atp_c" "C00002" "atp_c + h2o_c --> adp_c + datp_c",
   replace "aa" "b" "aaaaa", replace "" "-" "ab", replace "-->" "->" "a --> b")
  = ("C00002 + h2o_c --> adp_c + dC00002", "bba", "-a-b-", "a -> b")%string.
Proof. reflexivity. Qed.

Lemma str_in_C_cons a s :
  str_in "C" (String a s) = Ascii.eqb a "C" || str_in "C" s.
Proof.
  cbn [str_in String.prefix].
  destruct (ascii_dec "C" a) as [<-|Hne].
  - by destruct s.
  - destruct (Ascii.eqb_spec a "C"); [congruence | done].
Qed.

Lemma str_in_C_nil : str_in "C" "" = false.
Proof. reflexivity. Qed.

Lemma space_not_C a : is_space a = true -> Ascii.eqb a "C" = false.
Proof. destruct a as [[] [] [] [] [] [] [] []]; vm_compute; congruence. Qed.

Lemma digit_not_C a d : digit_val a = Some d -> Ascii.eqb a "C" = false.
Proof. destruct a as [[] [] [] [] [] [] [] []]; vm_compute; congruence. Qed.

Lemma underscore_not_C a : Ascii.eqb a "_" = true -> Ascii.eqb a "C" = false.
Proof. intros ->%Ascii.eqb_eq. reflexivity. Qed.

Lemma all_space_no_C s : all_space s = true -> str_in "C" s = false.
Proof.
  induction s as [|a s IH]; [done|].
  intros [Ha Hs]%andb_prop. rewrite str_in_C_cons, (space_not_C a Ha). auto.
Qed.

Lemma lstrip_space_C s : str_in "C" (lstrip_space s) = str_in "C" s.
Proof.
  induction s as [|a s IH]; [done|]. cbn [lstrip_space].
  destruct (is_space a) eqn:Ha; [|done].
  by rewrite IH, str_in_C_cons, (space_not_C a Ha).
Qed.

Lemma int_digits_no_C s : forall acc prev z,
  int_digits acc prev s = Some z -> str_in "C" s = false.
Proof.
  induction s as [|a s IH]; intros acc prev z; [done|].
  cbn [int_digits]. rewrite str_in_C_cons.
  destruct (digit_val a) as [d|] eqn:Hd.
  - intros H. rewrite (digit_not_C a d Hd). eauto.
  - destruct (Ascii.eqb a "_") eqn:Hu.
    + destruct prev; [|done]. rewrite (underscore_not_C a Hu). eauto.
    + destruct prev; [|done]. cbn [andb].
      destruct (all_space (String a s)) eqn:Hs; [|done].
      intros _. rewrite <- str_in_C_cons. by apply all_space_no_C.
Qed.

Lemma int_literal_digits m r z :
  int_literal m r = Some z -> int_digits 0 false r = Some z.
Proof.
  unfold int_literal. destruct (int_digits 0 false r) as [z'|]; [|done].
  by destruct (over_limit m _).
Qed.

(** A literal that [int] accepts holds no ['C']. *)
Lemma int_no_C m s z : int m s = Some z -> str_in "C" s = false.
Proof.
  unfold int. rewrite <- (lstrip_space_C s).
  destruct (lstrip_space s) as [|a r]; [done|].
  intros H. rewrite str_in_C_cons.
  assert (Ascii.eqb a "C" = false /\ str_in "C" r = false) as [-> ->]; [|done].
  destruct (Ascii.eqb_spec a "+") as [->|Hp].
  { split; [done|]. apply int_literal_digits in H. eauto using int_digits_no_C. }
  destruct (Ascii.eqb_spec a "-") as [->|Hm].
  { split; [done|]. destruct (int_literal m r) eqn:E; [|done].
    apply int_literal_digits in E. eauto using int_digits_no_C. }
  assert (int_literal m (String a r) = Some z) as H'.
  { destruct a as [[] [] [] [] [] [] [] []]; try done. }
  apply int_literal_digits, int_digits_no_C in H'. rewrite str_in_C_cons in H'.
  by apply orb_false_elim in H'.
Qed.

(** A literal that [int] reads is made of digits, underscores, signs and
    white space. *)
Lemma all_space_int_chars s : all_space s = true -> int_chars s = true.
Proof.
  induction s as [|a s IH]; [done|]. cbn [all_space int_chars].
  intros [Ha Hs]%andb_prop. rewrite IH by done. unfold int_char.
  destruct (digit_val a); [done|]. by rewrite Ha, !orb_true_r.
Qed.

Lemma int_digits_int_chars s : forall acc prev z,
  int_digits acc prev s = Some z -> int_chars s = true.
Proof.
  induction s as [|a s IH]; intros acc prev z; [done|].
  cbn [int_digits int_chars]. unfold int_char.
  destruct (digit_val a) as [d|] eqn:Hd; [by eauto|].
  destruct (Ascii.eqb a "_") eqn:Hu.
  - destruct prev; [|done]. cbn [orb andb]. eauto.
  - destruct prev; [|done]. cbn [andb].
    destruct (all_space (String a s)) eqn:Hs; [|done]. intros _.
    apply all_space_int_chars in Hs. cbn [int_chars] in Hs. unfold int_char in Hs.
    by rewrite Hd, Hu in Hs.
Qed.

Lemma lstrip_space_int_chars s :
  int_chars (lstrip_space s) = true -> int_chars s = true.
Proof.
  induction s as [|a s IH]; [done|]. cbn [lstrip_space].
  destruct (is_space a) eqn:Ha; [|done].
  intros Hs. cbn [int_chars]. rewrite IH by done. unfold int_char.
  destruct (digit_val a); [done|]. by rewrite Ha, !orb_true_r.
Qed.

Lemma int_int_chars m s z : int m s = Some z -> int_chars s = true.
Proof.
  unfold int. intros H. apply lstrip_space_int_chars.
  destruct (lstrip_space s) as [|a r]; [done|].
  destruct (Ascii.eqb_spec a "+") as [->|Hp].
  { apply int_literal_digits in H. cbn [int_chars].
    by rewrite (int_digits_int_chars _ _ _ _ H). }
  destruct (Ascii.eqb_spec a "-") as [->|Hm].
  { destruct (int_literal m r) eqn:E; [|done].
    apply int_literal_digits in E. cbn [int_chars].
    by rewrite (int_digits_int_chars _ _ _ _ E). }
  assert (int_literal m (String a r) = Some z) as H'.
  { destruct a as [[] [] [] [] [] [] [] []]; try done. }
  by apply int_literal_digits, int_digits_int_chars in H'.
Qed.

(** [lstrip] drops exactly a run of leading ['C']s. *)
Lemma lstrip_C_spec s :
  exists n, s = (String.concat "" (replicate n "C") ++ lstrip "C" s)%string
            /\ String.prefix "C" (lstrip "C" s) = false.
Proof.
  induction s as [|a s (n & IH & Hp)]; [by exists 0%nat|].
  cbn [lstrip]. destruct (Ascii.eqb_spec a "C") as [->|Hne].
  - exists (S n). split; [|done].
    rewrite IH at 1. destruct n; [done|]. reflexivity.
  - exists 0%nat. split; [done|]. cbn [String.prefix].
    destruct (ascii_dec "C" a); [congruence|done].
Qed.

End PyStrFacts.

(** ** Replacement in a string of tokens

    [String.concat " " ts] is [" ".join(ts)].  When [old] has no space and
    every token is [old] or free of [old], [replace] acts token by token. *)

Module PyStrTokens.
Import PyStr.
Local Open Scope string_scope.

Lemma append_cons a s r : String a s +:+ r = String a (s +:+ r).
Proof. reflexivity. Qed.

Lemma append_nil r : "" +:+ r = r.
Proof. reflexivity. Qed.

Lemma append_nil_r s : s +:+ "" = s.
Proof. induction s as [|a s IH]; [done|]. by rewrite append_cons, IH. Qed.

Lemma prefix_nil s : String.prefix "" s = true.
Proof. by destruct s. Qed.

Lemma prefix_app old r : String.prefix old (old +:+ r) = true.
Proof.
  induction old as [|a old IH]; [apply prefix_nil|].
  rewrite append_cons. cbn [String.prefix]. by destruct (ascii_dec a a).
Qed.

Lemma prefix_split old : forall u r,
  String.prefix old (u +:+ r) = true ->
  String.prefix old u = true \/
  exists x, x <> "" /\ old = u +:+ x /\ String.prefix x r = true.
Proof.
  induction old as [|a old IH]; intros u r Hp.
  { left. apply prefix_nil. }
  destruct u as [|c u].
  { right. by exists (String a old). }
  rewrite append_cons in Hp. cbn [String.prefix] in Hp |- *.
  destruct (ascii_dec a c) as [->|]; [|done].
  destruct (IH u r Hp) as [Hl|(x & Hx & -> & Hr)]; [by left|].
  right. by exists x.
Qed.

Lemma str_in_app_r sub u v : str_in sub v = true -> str_in sub (u +:+ v) = true.
Proof.
  intros Hv. induction u as [|c u IH]; [done|].
  rewrite append_cons. cbn [str_in]. rewrite IH. apply orb_true_r.
Qed.

Lemma str_in_cons_false sub c s :
  str_in sub (String c s) = false ->
  String.prefix sub (String c s) = false /\ str_in sub s = false.
Proof. cbn [str_in]. by intros ?%orb_false_elim. Qed.

Lemma replace_from_skip old new u : forall r,
  replace_from old new (String.length u) (u +:+ r) = replace_from old new 0 r.
Proof.
  induction u as [|c u IH]; intros r; [done|].
  rewrite append_cons. cbn [String.length replace_from]. apply IH.
Qed.

Section Tokens.
Context (old new : string).
Context (Hne : old <> "") (Hsp : str_in " " old = false).

Lemma replace_from_old r :
  replace_from old new 0 (old +:+ r) = new +:+ replace_from old new 0 r.
Proof.
  destruct old as [|a o] eqn:Ho; [done|].
  rewrite append_cons. cbn [replace_from]. rewrite <- append_cons, prefix_app.
  cbn [String.length Nat.pred]. by rewrite replace_from_skip.
Qed.

Lemma replace_from_space r :
  replace_from old new 0 (String " " r) = String " " (replace_from old new 0 r).
Proof.
  destruct old as [|a o] eqn:Ho; [done|].
  apply str_in_cons_false in Hsp as [Hp _].
  cbn [replace_from]. cbn in Hp |- *.
  destruct (ascii_dec " " a) as [<-|Hna]; [by destruct o|].
  destruct (ascii_dec a " ") as [->|]; [done|done].
Qed.

Lemma replace_from_other t : forall r,
  str_in old t = false -> token_end r ->
  replace_from old new 0 (t +:+ r) = t +:+ replace_from old new 0 r.
Proof.
  induction t as [|c t IH]; intros r Ht Hr; [done|].
  apply str_in_cons_false in Ht as [Hp Ht].
  rewrite append_cons. cbn [replace_from].
  destruct (String.prefix old (String c (t +:+ r))) eqn:Hpre.
  - exfalso. rewrite <- append_cons in Hpre.
    apply prefix_split in Hpre as [Hl|(x & Hx & Hold & Hxr)]; [congruence|].
    destruct Hr as [->|[r' ->]].
    + destruct x; [done|]. done.
    + destruct x as [|b x]; [done|]. cbn in Hxr.
      destruct (ascii_dec b " ") as [->|]; [|done].
      rewrite Hold in Hsp. rewrite str_in_app_r in Hsp; [done|].
      cbn. by destruct x.
  - by rewrite IH.
Qed.

Lemma concat_cons (t : string) ts :
  String.concat " " (t :: ts)
  = t +:+ match ts with [] => "" | _ => String " " (String.concat " " ts) end.
Proof.
  destruct ts as [|t' ts]; cbn [String.concat].
  - by rewrite append_nil_r.
  - done.
Qed.

Lemma replace_concat ts :
  Forall (fun t => t = old \/ str_in old t = false) ts ->
  replace old new (String.concat " " ts)
  = String.concat " " (swap_token old new <$> ts).
Proof.
  intros Hts.
  assert (replace old new = replace_from old new 0) as ->.
  { unfold replace. by destruct old. }
  induction Hts as [|t ts Ht Hts IH]; [done|].
  cbn [fmap list_fmap]. rewrite !concat_cons.
  assert (replace_from old new 0
            match ts with [] => "" | _ => String " " (String.concat " " ts) end
          = match swap_token old new <$> ts with
            | [] => ""
            | _ => String " " (String.concat " " (swap_token old new <$> ts))
            end) as Hrest.
  { destruct ts as [|t' ts]; [done|]. rewrite replace_from_space, IH. done. }
  unfold swap_token at 1. destruct (decide (t = old)) as [->|Hne'].
  - by rewrite replace_from_old, Hrest.
  - destruct Ht as [?|Ht]; [done|].
    rewrite replace_from_other, Hrest; [done..|].
    destruct ts; [by left | right; eauto].
Qed.

End Tokens.
End PyStrTokens.

(** ** Stable sorting by key *)

Section Sorting.
Context {A : Type}.
Implicit Types (l : list (Z * A)) (k : Z) (x : A).

Lemma insert_keyed_perm k x l : insert_keyed k x l ≡ₚ (k, x) :: l.
Proof.
  induction l as [|[k' y] l IH]; [done|]. cbn [insert_keyed].
  case_match; [done|]. by rewrite IH, Permutation_swap.
Qed.

Lemma sort_keyed_cons k x l :
  sort_keyed ((k, x) :: l) = insert_keyed k x (sort_keyed l).
Proof. reflexivity. Qed.

Lemma sort_keyed_perm l : sort_keyed l ≡ₚ l.
Proof.
  induction l as [|[k x] l IH]; [done|].
  by rewrite sort_keyed_cons, insert_keyed_perm, IH.
Qed.

Lemma insert_keyed_sorted k x l :
  StronglySorted key_le l -> StronglySorted key_le (insert_keyed k x l).
Proof.
  induction l as [|[k' y] l IH]; intros Hs; cbn [insert_keyed].
  { repeat constructor. }
  apply StronglySorted_cons in Hs as [Hall Hs].
  destruct (Z.leb_spec k k') as [Hle|Hlt].
  - apply StronglySorted_cons. split; [|by apply StronglySorted_cons].
    constructor; [done|].
    eapply Forall_impl; [exact Hall|]. unfold key_le; simpl. lia.
  - apply StronglySorted_cons. split; [|auto].
    rewrite insert_keyed_perm. constructor; [|done]. unfold key_le; simpl. lia.
Qed.

Lemma sort_keyed_sorted l : StronglySorted key_le (sort_keyed l).
Proof.
  induction l as [|[k x] l IH]; [constructor|].
  rewrite sort_keyed_cons. by apply insert_keyed_sorted.
Qed.

(** Entries with equal keys keep their order. *)
Lemma insert_keyed_stable k0 k x l :
  filter (fun p => p.1 = k0) (insert_keyed k x l)
  = filter (fun p => p.1 = k0) ((k, x) :: l).
Proof.
  induction l as [|[k' y] l IH]; [done|]. cbn [insert_keyed].
  destruct (Z.leb_spec k k') as [Hle|Hlt]; [done|].
  rewrite filter_cons, IH, !filter_cons. simpl.
  repeat case_decide; try done; lia.
Qed.

Lemma sort_keyed_stable k0 l :
  filter (fun p => p.1 = k0) (sort_keyed l) = filter (fun p => p.1 = k0) l.
Proof.
  induction l as [|[k x] l IH]; [done|].
  by rewrite sort_keyed_cons, insert_keyed_stable, !filter_cons, IH.
Qed.

Lemma insert_keyed_head k x l :
  head (insert_keyed k x l)
  = match head l with
    | Some (k', y) => if (k <=? k')%Z then Some (k, x) else Some (k', y)
    | None => Some (k, x)
    end.
Proof. destruct l as [|[k' y] l]; [done|]. cbn. by case_match. Qed.

(** The sorted list starts with the first of the least entries. *)
Lemma sort_keyed_head l : head (sort_keyed l) = least_keyed l.
Proof.
  induction l as [|[k x] l IH]; [done|].
  by rewrite sort_keyed_cons, insert_keyed_head, IH.
Qed.

End Sorting.

(** ** What a call does to the store and what it returns *)

Section Run.
Context `{PY : Interpreter} `{API : Equilibrator}.


Lemma bind_read_str_list {B} l (k : list string -> M B) st :
  (xs <- read_str_list l ;; k xs) st = k (strs_at st l) st.
Proof. reflexivity. Qed.

Lemma bind_read_rxn_list {B} l (k : list Rxn.t -> M B) st :
  (xs <- read_rxn_list l ;; k xs) st = k (rxns_at st l) st.
Proof. reflexivity. Qed.

Lemma strs_at_prefix S st l :
  S `prefix_of` str_lists st -> (l < length S)%nat ->
  strs_at st l = default [] (S !! l).
Proof.
  intros Hpre [xs Hxs]%lookup_lt_is_Some_2. unfold strs_at.
  by rewrite (prefix_lookup_Some _ _ _ _ Hxs Hpre), Hxs.
Qed.

Lemma smallest_compound_ID_run l st :
  smallest_compound_ID l st =
    let cs := filter (fun x => has_C x) (strs_at st l) in
    match mapM cid_key cs with
    | None =>
        (Raise ValueError, Store (str_lists st ++ [cs]) (rxn_lists st))
    | Some ks =>
        (Ok (length (str_lists st)),
         Store (str_lists st ++ [(sort_keyed (zip ks cs)).*2]) (rxn_lists st))
    end.
Proof.
  unfold smallest_compound_ID, list_sort, bind, read_str_list, new_str_list,
    write_str_list, raise, ret, strs_at. cbn.
  rewrite list_lookup_middle by done. cbn.
  destruct (mapM cid_key _) as [ks|]; [|done]. cbn.
  rewrite insert_app_r_alt by done. rewrite Nat.sub_diag. done.
Qed.

Lemma match_by_name_run met s st :
  match_by_name met s st = (Ok (use_id met s (name_match met)), st).
Proof.
  unfold match_by_name, name_match, use_id.
  destruct (Met.name met) as [[|a n]|]; try done.
  unfold bind, attempt, lift, ret.
  destruct (COMPOUND_MATCHER_match _) as [df|e]; [|done].
  by destruct (CID_iloc0 df).
Qed.

Lemma existsb_filter_nonempty (f : string -> bool) xs :
  existsb f xs = true -> filter (fun x => f x) xs <> [].
Proof.
  intros (x & Hin & Hx)%existsb_exists Hnil.
  assert (x ∈ filter (fun x => f x) xs) as Hel.
  { apply list_elem_of_filter. split; [by rewrite Hx | by apply list_elem_of_In]. }
  rewrite Hnil in Hel. by apply elem_of_nil in Hel.
Qed.

Lemma map_metabolite_run S met s st :
  wf_met S met -> S `prefix_of` str_lists st ->
  exists junk,
    map_metabolite met s st =
      (match kegg_id S met with
       | Ok k => Ok (use_id met s k)
       | Raise e => Raise e
       end,
       Store (str_lists st ++ junk) (rxn_lists st)).
Proof.
  intros Hwf Hpre. unfold map_metabolite, kegg_id.
  destruct (Met.annotation met !! "kegg.compound"%string) as [[a|l|]|] eqn:Hann.
  - destruct (has_C a).
    + exists []. rewrite app_nil_r. by destruct st.
    + exists []. rewrite match_by_name_run, app_nil_r. by destruct st.
  - unfold wf_met in Hwf. rewrite Hann in Hwf.
    rewrite bind_read_str_list.
    pose proof (strs_at_prefix S st l Hpre Hwf) as Hxs.
    rewrite Hxs. set (xs := default [] (S !! l)) in *.
    destruct (existsb has_C xs) eqn:Hex.
    2:{ exists []. rewrite match_by_name_run, app_nil_r. by destruct st. }
    unfold bind. rewrite smallest_compound_ID_run.
    rewrite Hxs. cbn zeta. unfold smallest_cid.
    pose proof (existsb_filter_nonempty _ _ Hex) as Hne.
    destruct (mapM cid_key _) as [ks|] eqn:Hks.
    2:{ by eexists. }
    unfold read_str_list. cbn [str_lists rxn_lists].
    rewrite list_lookup_middle by done. cbn [default].
    exists [(sort_keyed (zip ks (filter (fun x => has_C x) xs))).*2].
    rewrite <- sort_keyed_head.
    destruct (sort_keyed _) as [|[k y] ys] eqn:Hs; [|done].
    exfalso. apply length_mapM in Hks.
    pose proof (sort_keyed_perm (zip ks (filter (λ x : string, has_C x) xs))) as Hp.
    rewrite Hs in Hp. apply Permutation_nil_l in Hp.
    destruct ks, (filter _ xs); done.
  - exists []. rewrite match_by_name_run, app_nil_r. by destruct st.
  - exists []. rewrite match_by_name_run, app_nil_r. by destruct st.
Qed.

Lemma map_ids_run S mets : forall s st,
  Forall (wf_met S) mets -> S `prefix_of` str_lists st ->
  exists junk,
    for_each mets map_metabolite s st =
      (map_ids S mets s, Store (str_lists st ++ junk) (rxn_lists st)).
Proof.
  induction mets as [|met mets IH]; intros s st Hwf Hpre.
  { exists []. rewrite app_nil_r. by destruct st. }
  apply Forall_cons in Hwf as [Hm Hwf].
  destruct (map_metabolite_run S met s st Hm Hpre) as [junk Hrun].
  cbn [for_each map_ids]. unfold bind. rewrite Hrun.
  destruct (kegg_id S met) as [k|e]; [|by eexists].
  destruct (IH (use_id met s k) (Store (str_lists st ++ junk) (rxn_lists st)) Hwf)
    as [junk' Hrun'].
  { cbn. by apply prefix_app_r. }
  rewrite Hrun'. cbn [str_lists rxn_lists]. rewrite <- (assoc_L (++)).
  exists (junk ++ junk'). by destruct k.
Qed.

Lemma get_equilibrator_rxn_string_run S rxn st :
  wf_rxn S rxn -> S `prefix_of` str_lists st ->
  exists junk,
    get_equilibrator_rxn_string rxn st =
      (rxn_string S rxn, Store (str_lists st ++ junk) (rxn_lists st)).
Proof.
  intros Hwf Hpre.
  destruct (map_ids_run S (Rxn.metabolites rxn) (Rxn.reaction rxn) st Hwf Hpre)
    as [junk Hrun].
  exists junk. unfold get_equilibrator_rxn_string, rxn_string, bind.
  rewrite Hrun. by destruct (map_ids _ _ _).
Qed.

Lemma check_reaction_run S out g rxn st :
  wf_rxn S rxn -> S `prefix_of` str_lists st ->
  exists junk,
    check_reaction out g rxn st =
      (Ok tt, Store (str_lists st ++ junk)
                    (file_rxn out (classify S g rxn) rxn (rxn_lists st))).
Proof.
  intros Hwf Hpre.
  destruct (get_equilibrator_rxn_string_run S rxn st Hwf Hpre) as [junk Hrun].
  exists junk. unfold check_reaction, classify, bind, attempt, lift.
  rewrite Hrun. destruct (rxn_string S rxn) as [s|e]; [|done].
  destruct (parse_formula s) as [eq_rxn|e]; [|done].
  destruct (check_full_reaction_balancing eq_rxn); [|done].
  destruct (reversibility_index eq_rxn) as [ln_RI|e]; [|done].
  by destruct (negb _).
Qed.

Lemma check_reactions_run S out g xs : forall st,
  Forall (wf_rxn S) xs -> S `prefix_of` str_lists st ->
  exists junk,
    for_each xs (fun rxn _ => check_reaction out g rxn) tt st =
      (Ok tt,
       Store (str_lists st ++ junk)
             (foldl (fun R rxn => file_rxn out (classify S g rxn) rxn R)
                    (rxn_lists st) xs)).
Proof.
  induction xs as [|rxn xs IH]; intros st Hwf Hpre.
  { exists []. rewrite app_nil_r. by destruct st. }
  apply Forall_cons in Hwf as [Hr Hwf].
  destruct (check_reaction_run S out g rxn st Hr Hpre) as [junk Hrun].
  cbn [for_each foldl]. unfold bind. rewrite Hrun.
  destruct (IH (Store (str_lists st ++ junk)
                     (file_rxn out (classify S g rxn) rxn (rxn_lists st))) Hwf)
    as [junk' Hrun'].
  { cbn. by apply prefix_app_r. }
  rewrite Hrun'. cbn [str_lists rxn_lists]. rewrite <- (assoc_L (++)).
  by exists (junk ++ junk').
Qed.

(** The four result lists after the loop: each holds, in order, the
    reactions with its outcome. *)
Lemma file_rxns_filter (f : Rxn.t -> outcome) out R0 xs : forall a b c d,
  incomplete_mapping out = length R0 ->
  problematic_calculation out = S (length R0) ->
  incorrect_reversibility out = S (S (length R0)) ->
  unbalanced out = S (S (S (length R0))) ->
  foldl (fun R rxn => file_rxn out (f rxn) rxn R) (R0 ++ [a; b; c; d]) xs
  = R0 ++ [a ++ filter (fun r => f r = IncompleteMapping) xs;
           b ++ filter (fun r => f r = ProblematicCalculation) xs;
           c ++ filter (fun r => f r = IncorrectReversibility) xs;
           d ++ filter (fun r => f r = Unbalanced) xs].
Proof.
  induction xs as [|rxn xs IH]; intros a b c d H1 H2 H3 H4.
  { by rewrite !filter_nil, !app_nil_r. }
  cbn [foldl]. rewrite !filter_cons. unfold file_rxn at 2.
  destruct (f rxn) eqn:Hf; cbn [bucket_of];
    rewrite ?H1, ?H2, ?H3, ?H4, ?alter_app_r_alt by lia;
    rewrite ?Nat.sub_diag, ?Nat.sub_succ_l, ?Nat.sub_diag by lia;
    cbn [alter list_alter]; rewrite IH by done;
    repeat case_decide; try done; by rewrite <- ?(assoc_L (++)).
Qed.

Lemma rxns_at_alloc S R l :
  rxns_at (Store S (R ++ [[]; []; []; []])) l = rxns_at (Store S R) l.
Proof.
  unfold rxns_at. cbn [rxn_lists].
  destruct (decide (l < length R)%nat) as [Hlt|Hge].
  - by rewrite lookup_app_l.
  - rewrite lookup_app_r by lia. rewrite (lookup_ge_None_2 R l) by lia.
    generalize (l - length R)%nat. intros k.
    by do 4 (destruct k as [|k]; [done|]).
Qed.

Lemma find_incorrect_thermodynamic_reversibility_run S reactions g st :
  S `prefix_of` str_lists st ->
  Forall (wf_rxn S) (rxns_at st reactions) ->
  exists junk,
    find_incorrect_thermodynamic_reversibility reactions g st =
      (Ok (result_locs (length (rxn_lists st))),
       Store (str_lists st ++ junk)
             (rxn_lists st
              ++ result_lists (classify S g) (rxns_at st reactions))).
Proof.
  intros Hpre Hwf. unfold find_incorrect_thermodynamic_reversibility.
  unfold bind at 1 2 3 4. unfold new_rxn_list. cbn [str_lists rxn_lists].
  rewrite bind_read_rxn_list. rewrite <- !(assoc_L (++)). cbn [app].
  rewrite !length_app. cbn [length]. rewrite rxns_at_alloc.
  replace (rxns_at (Store (str_lists st) (rxn_lists st)) reactions)
    with (rxns_at st reactions) by (by destruct st).
  set (n := length (rxn_lists st)).
  set (out := Buckets _ _ _ _).
  destruct (check_reactions_run S out g (rxns_at st reactions)
              (Store (str_lists st) (rxn_lists st ++ [[]; []; []; []])) Hwf)
    as [junk Hrun]; [done|].
  exists junk. unfold bind. rewrite Hrun. cbn [str_lists rxn_lists].
  rewrite (file_rxns_filter _ out (rxn_lists st))
    by (subst out n; cbn; clear; lia).
  subst out n. unfold ret, result_locs, result_lists. cbn [app].
  do 2 f_equal. f_equal; lia.
Qed.

End Run.

(** ** Frame: a call creates list objects and changes none it was given *)

Section Frame.
Context `{PY : Interpreter} `{API : Equilibrator}.

Lemma adds_strs_ret {A} (a : A) st : adds_strs (ret a) st.
Proof. exists []. cbn. rewrite app_nil_r. by destruct st. Qed.

Lemma adds_strs_bind {A B} (m : M A) (k : A -> M B) st :
  adds_strs m st ->
  (forall a st', (m st) = (Ok a, st') -> adds_strs (k a) st') ->
  adds_strs (bind m k) st.
Proof.
  intros [junk Hm] Hk. unfold adds_strs, bind.
  destruct (m st) as [[a|e] st'] eqn:Hrun; cbn in Hm; subst st'.
  - destruct (Hk a _ eq_refl) as [junk' Hk']. exists (junk ++ junk').
    rewrite Hk'. cbn. by rewrite (assoc_L (++)).
  - by exists junk.
Qed.

Lemma adds_strs_read {B} l (k : list string -> M B) st :
  adds_strs (k (strs_at st l)) st ->
  adds_strs (xs <- read_str_list l ;; k xs) st.
Proof. done. Qed.

Lemma smallest_compound_ID_frame l st : adds_strs (smallest_compound_ID l) st.
Proof.
  unfold adds_strs. rewrite smallest_compound_ID_run. cbn zeta.
  destruct (mapM _ _); by eexists.
Qed.

Lemma match_by_name_frame met s st : adds_strs (match_by_name met s) st.
Proof.
  unfold adds_strs. rewrite match_by_name_run. exists [].
  cbn. rewrite app_nil_r. by destruct st.
Qed.

Lemma map_metabolite_frame met s st : adds_strs (map_metabolite met s) st.
Proof.
  unfold map_metabolite.
  destruct (Met.annotation met !! "kegg.compound"%string) as [[a|l|]|];
    try apply match_by_name_frame.
  - destruct (has_C a); [apply adds_strs_ret | apply match_by_name_frame].
  - apply adds_strs_read.
    destruct (existsb _ _); [|apply match_by_name_frame].
    apply adds_strs_bind; [apply smallest_compound_ID_frame|].
    intros sorted st' _. apply adds_strs_read.
    destruct (strs_at st' sorted); [|apply adds_strs_ret].
    exists []. cbn. rewrite app_nil_r. by destruct st'.
Qed.

Lemma for_each_frame {A B} (body : A -> B -> M B) xs : forall b st,
  (forall x b st, adds_strs (body x b) st) ->
  adds_strs (for_each xs body b) st.
Proof.
  induction xs as [|x xs IH]; intros b st Hbody; cbn [for_each].
  - apply adds_strs_ret.
  - apply adds_strs_bind; [apply Hbody|]. intros b' st' _. by apply IH.
Qed.

Lemma get_equilibrator_rxn_string_frame rxn st :
  adds_strs (get_equilibrator_rxn_string rxn) st.
Proof.
  unfold get_equilibrator_rxn_string. apply adds_strs_bind.
  - apply for_each_frame. intros. apply map_metabolite_frame.
  - intros. apply adds_strs_ret.
Qed.

Lemma check_reaction_frame out g rxn st :
  exists junk o,
    check_reaction out g rxn st =
      (Ok tt, Store (str_lists st ++ junk) (file_rxn out o rxn (rxn_lists st))).
Proof.
  destruct (get_equilibrator_rxn_string_frame rxn st) as [junk Hf].
  exists junk. unfold check_reaction, bind, attempt, lift.
  destruct (get_equilibrator_rxn_string rxn st) as [[s|e] st'] eqn:Hrun;
    cbn in Hf; subst st'.
  2:{ by exists IncompleteMapping. }
  destruct (parse_formula s) as [eq_rxn|e]; [|by exists IncompleteMapping].
  destruct (check_full_reaction_balancing eq_rxn); [|by exists Unbalanced].
  destruct (reversibility_index eq_rxn) as [ln_RI|e];
    [|by exists ProblematicCalculation].
  destruct (negb _); [by exists IncorrectReversibility | by exists Agrees].
Qed.

Lemma file_rxn_frame out o rxn R0 a b c d :
  out = result_locs (length R0) ->
  exists a' b' c' d',
    file_rxn out o rxn (R0 ++ [a; b; c; d]) = R0 ++ [a'; b'; c'; d'].
Proof.
  intros ->. unfold file_rxn.
  destruct o; cbn [bucket_of result_locs incorrect_reversibility
    incomplete_mapping problematic_calculation unbalanced];
    rewrite ?alter_app_r_alt by lia;
    [replace (2 + length R0 - length R0)%nat with 2%nat by lia
    |rewrite Nat.sub_diag
    |replace (1 + length R0 - length R0)%nat with 1%nat by lia
    |replace (3 + length R0 - length R0)%nat with 3%nat by lia
    |]; by do 4 eexists.
Qed.

Lemma check_reactions_frame out g R0 xs : forall st a b c d,
  out = result_locs (length R0) ->
  rxn_lists st = R0 ++ [a; b; c; d] ->
  exists junk a' b' c' d',
    for_each xs (fun rxn _ => check_reaction out g rxn) tt st =
      (Ok tt, Store (str_lists st ++ junk) (R0 ++ [a'; b'; c'; d'])).
Proof.
  induction xs as [|rxn xs IH]; intros st a b c d Hout HR.
  { exists [], a, b, c, d. cbn. rewrite app_nil_r, <- HR. by destruct st. }
  destruct (check_reaction_frame out g rxn st) as (junk & o & Hrun).
  destruct (file_rxn_frame out o rxn R0 a b c d Hout) as (a1 & b1 & c1 & d1 & HR1).
  cbn [for_each]. unfold bind. rewrite Hrun, HR, HR1.
  destruct (IH (Store (str_lists st ++ junk) (R0 ++ [a1; b1; c1; d1]))
              a1 b1 c1 d1 Hout eq_refl) as (junk' & a' & b' & c' & d' & Hrun').
  rewrite Hrun'. cbn [str_lists]. rewrite <- (assoc_L (++)).
  by exists (junk ++ junk'), a', b', c', d'.
Qed.

Lemma find_incorrect_thermodynamic_reversibility_frame reactions g st :
  exists junk a b c d,
    find_incorrect_thermodynamic_reversibility reactions g st =
      (Ok (result_locs (length (rxn_lists st))),
       Store (str_lists st ++ junk) (rxn_lists st ++ [a; b; c; d])).
Proof.
  unfold find_incorrect_thermodynamic_reversibility.
  unfold bind at 1 2 3 4. unfold new_rxn_list. cbn [str_lists rxn_lists].
  rewrite bind_read_rxn_list. rewrite <- !(assoc_L (++)). cbn [app].
  rewrite !length_app. cbn [length].
  set (xs := rxns_at _ reactions).
  assert (Buckets (length (rxn_lists st) + 2) (length (rxn_lists st))
            (length (rxn_lists st) + 1) (length (rxn_lists st) + 3)
          = result_locs (length (rxn_lists st))) as ->.
  { unfold result_locs. f_equal; lia. }
  destruct (check_reactions_frame (result_locs (length (rxn_lists st))) g
              (rxn_lists st) xs
              (Store (str_lists st) (rxn_lists st ++ [[]; []; []; []]))
              [] [] [] [] eq_refl eq_refl)
    as (junk & a & b & c & d & Hrun).
  exists junk, a, b, c, d. unfold bind. by rewrite Hrun.
Qed.

Lemma extends_adds st junk R' :
  rxn_lists st `prefix_of` R' ->
  extends st (Store (str_lists st ++ junk) R').
Proof. intros HR. split; cbn; [by apply prefix_app_r | done]. Qed.

End Frame.

(** ** The claims about [find_incorrect_thermodynamic_reversibility] *)

Section Claims.
Context `{PY : Interpreter} `{API : Equilibrator}.

Lemma filter_Forall_iff {A} (P Q : A -> Prop) `{!forall x, Decision (P x)}
    `{!forall x, Decision (Q x)} (l : list A) :
  Forall (fun x => P x <-> Q x) l -> filter P l = filter Q l.
Proof.
  induction 1 as [|x l Hx _ IH]; [done|]. rewrite !filter_cons, IH.
  repeat case_decide; tauto.
Qed.

Lemma mapped_formula_spec st rxn :
  wf_rxn (str_lists st) rxn ->
  mapped_formula st rxn = rxn_string (str_lists st) rxn.
Proof.
  intros Hwf. unfold mapped_formula.
  destruct (get_equilibrator_rxn_string_run (str_lists st) rxn st Hwf)
    as [junk ->]; done.
Qed.

Lemma classify_parsed st g rxn :
  wf_rxn (str_lists st) rxn ->
  classify (str_lists st) g rxn =
    match parsed st rxn with
    | Raise _ => IncompleteMapping
    | Ok eq_rxn =>
        if check_full_reaction_balancing eq_rxn then
          match reversibility_index eq_rxn with
          | Raise _ => ProblematicCalculation
          | Ok ln_RI =>
              if negb (Bool.eqb (index_lt ln_RI g) (Rxn.reversibility rxn))
              then IncorrectReversibility
              else Agrees
          end
        else Unbalanced
    end.
Proof.
  intros Hwf. unfold classify, parsed. rewrite mapped_formula_spec by done.
  destruct (rxn_string _ rxn) as [s|e]; [|done].
  by destruct (parse_formula s).
Qed.

Lemma classify_agrees st g rxn :
  wf_rxn (str_lists st) rxn ->
  classify (str_lists st) g rxn = Agrees <-> agrees st g rxn.
Proof.
  intros Hwf. rewrite classify_parsed by done. unfold agrees. split.
  - destruct (parsed st rxn) as [eq_rxn|e]; [|done].
    destruct (check_full_reaction_balancing eq_rxn) eqn:Hb; [|done].
    destruct (reversibility_index eq_rxn) as [ln_RI|e] eqn:Hri; [|done].
    destruct (Bool.eqb _ _) eqn:Heq; [|done]. intros _.
    exists eq_rxn, ln_RI. by apply Bool.eqb_prop in Heq.
  - intros (eq_rxn & ln_RI & -> & -> & -> & ->).
    by rewrite Bool.eqb_reflx.
Qed.

(** The outcome of a complete run on well-formed input. *)
Lemma find_summary reactions g st :
  Forall (wf_rxn (str_lists st)) (rxns_at st reactions) ->
  exists out st',
    find_incorrect_thermodynamic_reversibility reactions g st = (Ok out, st')
    /\ returned st' out
       = (fun o => filter (fun r => classify (str_lists st) g r = o)
                          (rxns_at st reactions))
         <$> [IncorrectReversibility; IncompleteMapping;
              ProblematicCalculation; Unbalanced].
Proof.
  intros Hwf.
  destruct (find_incorrect_thermodynamic_reversibility_run (str_lists st)
              reactions g st) as [junk Hrun]; [done..|].
  eexists _, _. split; [exact Hrun|].
  unfold returned, rxns_at, result_locs, result_lists. cbn.
  rewrite !lookup_app_r by lia.
  replace (S (S (length (rxn_lists st))) - length (rxn_lists st))%nat
    with 2%nat by lia.
  replace (S (length (rxn_lists st)) - length (rxn_lists st))%nat
    with 1%nat by lia.
  replace (S (S (S (length (rxn_lists st)))) - length (rxn_lists st))%nat
    with 3%nat by lia.
  by rewrite Nat.sub_diag.
Qed.

Lemma outcome_lists_lookup (f : Rxn.t -> outcome) (xs l : list Rxn.t) i rxn :
  ((fun o => filter (fun r => f r = o) xs)
     <$> [IncorrectReversibility; IncompleteMapping;
          ProblematicCalculation; Unbalanced]) !! i = Some l ->
  rxn ∈ l ->
  rxn ∈ xs /\
  [IncorrectReversibility; IncompleteMapping;
   ProblematicCalculation; Unbalanced] !! i = Some (f rxn).
Proof.
  rewrite list_lookup_fmap. intros Hl Hin.
  destruct ([_; _; _; _] !! i) as [o|] eqn:Ho; [|done].
  cbn in Hl. injection Hl as <-. apply list_elem_of_filter in Hin as [-> ?].
  done.
Qed.

Lemma outcome_index_lookup i o :
  [IncorrectReversibility; IncompleteMapping;
   ProblematicCalculation; Unbalanced] !! i = Some o <->
  outcome_index o = Some i.
Proof.
  split.
  - do 4 (destruct i as [|i]; [by intros [= <-]|]). done.
  - destruct o; intros [= <-]; done.
Qed.

(** C1 (amended).  On a well-formed input the call returns, and every
    reaction of the input list is in at most one of the four returned lists:
    in none when its mapped string parses, the reaction balances, the
    reversibility index is computed and the verdict [ln_RI < lngamma] equals
    the annotated reversibility; in exactly one otherwise. *)
Theorem each_reaction_in_at_most_one_list reactions lngamma st :
  Forall (wf_rxn (str_lists st)) (rxns_at st reactions) ->
  exists out st',
    find_incorrect_thermodynamic_reversibility reactions lngamma st
      = (Ok out, st') /\
    forall rxn, rxn ∈ rxns_at st reactions ->
      (agrees st lngamma rxn ->
         forall l, l ∈ returned st' out -> rxn ∉ l) /\
      (~ agrees st lngamma rxn -> in_exactly_one rxn (returned st' out)).
Proof.
  intros Hwf. destruct (find_summary reactions lngamma st Hwf)
    as (out & st' & Hrun & Hret).
  exists out, st'. split; [done|]. intros rxn Hin. rewrite Hret.
  assert (wf_rxn (str_lists st) rxn) as Hr.
  { by eapply Forall_forall in Hwf. }
  rewrite <- (classify_agrees st lngamma rxn Hr). split.
  - intros Ha l [i Hi]%list_elem_of_lookup Hl.
    destruct (outcome_lists_lookup _ _ _ _ _ Hi Hl) as [_ Ho].
    apply outcome_index_lookup in Ho. by rewrite Ha in Ho.
  - intros Hna.
    destruct (outcome_index (classify (str_lists st) lngamma rxn)) as [i|] eqn:Hi.
    2:{ by destruct (classify _ _ rxn). }
    exists i, (filter (fun r => classify (str_lists st) lngamma r
                                = classify (str_lists st) lngamma rxn)
                      (rxns_at st reactions)).
    split; [|split].
    + apply outcome_index_lookup in Hi. rewrite list_lookup_fmap, Hi. done.
    + by apply list_elem_of_filter.
    + intros j l' Hj Hl'.
      destruct (outcome_lists_lookup _ _ _ _ _ Hj Hl') as [_ Ho].
      apply outcome_index_lookup in Ho. congruence.
Qed.

Lemma find_lists reactions g st :
  Forall (wf_rxn (str_lists st)) (rxns_at st reactions) ->
  exists out st',
    find_incorrect_thermodynamic_reversibility reactions g st = (Ok out, st')
    /\ forall rxn, rxn ∈ rxns_at st reactions ->
       forall o l, bucket_of out o = Some l ->
         rxn ∈ rxns_at st' l <-> classify (str_lists st) g rxn = o.
Proof.
  intros Hwf. destruct (find_summary reactions g st Hwf)
    as (out & st' & Hrun & Hret).
  exists out, st'. split; [done|]. intros rxn Hin o l Hl.
  unfold returned in Hret. cbn [fmap list_fmap] in Hret.
  injection Hret as H1 H2 H3 H4.
  destruct o; cbn in Hl; try discriminate Hl; injection Hl as <-;
    rewrite ?H1, ?H2, ?H3, ?H4, list_elem_of_filter; tauto.
Qed.

(** C2.  The three stages run in sequence and each failure goes to its list:
    a reaction whose mapped string cannot be built or parsed is in
    [incomplete_mapping] and in none of the lists of the later stages; one that
    parses and fails the balance check is in [unbalanced]; one that parses,
    balances and whose reversibility index raises is in
    [problematic_calculation]. *)
Theorem stage_failures_are_routed reactions lngamma st :
  Forall (wf_rxn (str_lists st)) (rxns_at st reactions) ->
  exists out st',
    find_incorrect_thermodynamic_reversibility reactions lngamma st
      = (Ok out, st') /\
    forall rxn, rxn ∈ rxns_at st reactions ->
      ((exists e, parsed st rxn = Raise e) ->
         rxn ∈ rxns_at st' (incomplete_mapping out) /\
         (rxn ∉ rxns_at st' (unbalanced out)) /\
         (rxn ∉ rxns_at st' (problematic_calculation out)) /\
         (rxn ∉ rxns_at st' (incorrect_reversibility out))) /\
      (forall eq_rxn,
         parsed st rxn = Ok eq_rxn ->
         check_full_reaction_balancing eq_rxn = false ->
         rxn ∈ rxns_at st' (unbalanced out)) /\
      (forall eq_rxn e,
         parsed st rxn = Ok eq_rxn ->
         check_full_reaction_balancing eq_rxn = true ->
         reversibility_index eq_rxn = Raise e ->
         rxn ∈ rxns_at st' (problematic_calculation out)).
Proof.
  intros Hwf. destruct (find_lists reactions lngamma st Hwf)
    as (out & st' & Hrun & Hb).
  exists out, st'. split; [done|]. intros rxn Hin.
  assert (wf_rxn (str_lists st) rxn) as Hr by (by eapply Forall_forall in Hwf).
  pose proof (classify_parsed st lngamma rxn Hr) as Hc.
  pose proof (Hb rxn Hin IncompleteMapping _ eq_refl) as Him.
  pose proof (Hb rxn Hin Unbalanced _ eq_refl) as Hub.
  pose proof (Hb rxn Hin ProblematicCalculation _ eq_refl) as Hpc.
  pose proof (Hb rxn Hin IncorrectReversibility _ eq_refl) as Hir.
  split; [|split].
  - intros [e He]. rewrite He in Hc. rewrite Him, Hub, Hpc, Hir, Hc. done.
  - intros eq_rxn He Hbal. rewrite He, Hbal in Hc. by rewrite Hub.
  - intros eq_rxn e He Hbal Hri. rewrite He, Hbal, Hri in Hc. by rewrite Hpc.
Qed.

(** C3.  A reaction that parses, balances and has a reversibility index
    [ln_RI] is in [incorrect_reversibility] exactly when [ln_RI < lngamma]
    differs from its annotated reversibility, and in no returned list when the
    two agree. *)
Theorem incorrect_iff_verdict_differs reactions lngamma st :
  Forall (wf_rxn (str_lists st)) (rxns_at st reactions) ->
  exists out st',
    find_incorrect_thermodynamic_reversibility reactions lngamma st
      = (Ok out, st') /\
    forall rxn eq_rxn ln_RI,
      rxn ∈ rxns_at st reactions ->
      parsed st rxn = Ok eq_rxn ->
      check_full_reaction_balancing eq_rxn = true ->
      reversibility_index eq_rxn = Ok ln_RI ->
      (rxn ∈ rxns_at st' (incorrect_reversibility out) <->
         index_lt ln_RI lngamma <> Rxn.reversibility rxn) /\
      (index_lt ln_RI lngamma = Rxn.reversibility rxn ->
         forall l, l ∈ returned st' out -> rxn ∉ l) /\
      (rxn ∉ rxns_at st' (incomplete_mapping out)) /\
      (rxn ∉ rxns_at st' (problematic_calculation out)) /\
      (rxn ∉ rxns_at st' (unbalanced out)).
Proof.
  intros Hwf. destruct (find_lists reactions lngamma st Hwf)
    as (out & st' & Hrun & Hb).
  exists out, st'. split; [done|]. intros rxn eq_rxn ln_RI Hin He Hbal Hri.
  assert (wf_rxn (str_lists st) rxn) as Hr by (by eapply Forall_forall in Hwf).
  pose proof (classify_parsed st lngamma rxn Hr) as Hc.
  rewrite He, Hbal, Hri in Hc.
  pose proof (Hb rxn Hin IncompleteMapping _ eq_refl) as Him.
  pose proof (Hb rxn Hin Unbalanced _ eq_refl) as Hub.
  pose proof (Hb rxn Hin ProblematicCalculation _ eq_refl) as Hpc.
  pose proof (Hb rxn Hin IncorrectReversibility _ eq_refl) as Hir.
  rewrite Him, Hub, Hpc, Hir, Hc.
  destruct (Bool.eqb _ _) eqn:Heq; cbn [negb].
  - apply Bool.eqb_prop in Heq. split_and!; try done.
    intros _ l Hl. unfold returned in Hl.
    rewrite !elem_of_cons, elem_of_nil in Hl.
    destruct Hl as [->|[->|[->|[->|[]]]]]; rewrite ?Him, ?Hub, ?Hpc, ?Hir, Hc;
      done.
  - apply Bool.eqb_false_iff in Heq. split_and!; try done.
Qed.

Lemma outcome_filters_submseteq (f : Rxn.t -> outcome) (xs : list Rxn.t) :
  concat ((fun o => filter (fun r => f r = o) xs)
            <$> [IncorrectReversibility; IncompleteMapping;
                 ProblematicCalculation; Unbalanced]) ⊆+ xs.
Proof.
  cbn [fmap list_fmap concat]. rewrite app_nil_r.
  induction xs as [|x xs IH]; [done|]. rewrite !filter_cons.
  set (l1 := filter (fun r => f r = IncorrectReversibility) xs) in *.
  set (l2 := filter (fun r => f r = IncompleteMapping) xs) in *.
  set (l3 := filter (fun r => f r = ProblematicCalculation) xs) in *.
  set (l4 := filter (fun r => f r = Unbalanced) xs) in *.
  destruct (f x) eqn:Hf; repeat case_decide; try done; cbn [app].
  - by apply submseteq_skip.
  - rewrite <- Permutation_middle. by apply submseteq_skip.
  - rewrite (assoc_L (++) l1 l2), <- Permutation_middle, <- (assoc_L (++)).
    by apply submseteq_skip.
  - rewrite (assoc_L (++) l2 l3), (assoc_L (++) l1), <- Permutation_middle,
      <- !(assoc_L (++)).
    by apply submseteq_skip.
  - by apply submseteq_cons.
Qed.

(** C5.  One pass over the input: each returned list is a subsequence of the
    input list (its elements are input reactions, in input order), the four
    lists together take each occurrence of an input reaction at most once, and
    no reaction is in two different lists. *)
Theorem result_lists_partition_a_subsequence reactions lngamma st :
  Forall (wf_rxn (str_lists st)) (rxns_at st reactions) ->
  exists out st',
    find_incorrect_thermodynamic_reversibility reactions lngamma st
      = (Ok out, st') /\
    Forall (fun l => l `sublist_of` rxns_at st reactions) (returned st' out) /\
    concat (returned st' out) ⊆+ rxns_at st reactions /\
    forall i j l l' rxn,
      returned st' out !! i = Some l -> returned st' out !! j = Some l' ->
      rxn ∈ l -> rxn ∈ l' -> i = j.
Proof.
  intros Hwf. destruct (find_summary reactions lngamma st Hwf)
    as (out & st' & Hrun & Hret).
  exists out, st'. split; [done|]. rewrite Hret. split_and!.
  - apply Forall_fmap, Forall_forall. intros o _. apply sublist_filter.
  - apply outcome_filters_submseteq.
  - intros i j l l' rxn Hi Hj Hl Hl'.
    destruct (outcome_lists_lookup _ _ _ _ _ Hi Hl) as [_ Ho].
    destruct (outcome_lists_lookup _ _ _ _ _ Hj Hl') as [_ Ho'].
    apply outcome_index_lookup in Ho, Ho'. congruence.
Qed.

Lemma kegg_id_raises S met e : kegg_id S met = Raise e -> e = ValueError.
Proof.
  unfold kegg_id, smallest_cid. repeat case_match; congruence.
Qed.

Lemma map_ids_raises S mets : forall s e,
  map_ids S mets s = Raise e -> e = ValueError.
Proof.
  induction mets as [|met mets IH]; intros s e; cbn [map_ids]; [done|].
  destruct (kegg_id S met) as [[k|]|e'] eqn:Hk; eauto.
  intros [= <-]. by eapply kegg_id_raises.
Qed.

Lemma smallest_cid_bad_entry xs x :
  x ∈ xs -> has_C x = true -> cid_key x = None ->
  smallest_cid xs = Raise ValueError.
Proof.
  intros Hin HC Hkey. unfold smallest_cid.
  destruct (mapM cid_key _) as [ks|] eqn:Hks; [|done].
  assert (is_Some (mapM cid_key (filter (fun x => has_C x) xs))) as Hs by eauto.
  apply mapM_is_Some in Hs. rewrite Forall_forall in Hs.
  destruct (Hs x) as [k Hk]; [|cbn in Hk; congruence].
  apply list_elem_of_filter. by rewrite HC.
Qed.

Lemma existsb_has_C_elem xs x : x ∈ xs -> has_C x = true -> existsb has_C xs = true.
Proof.
  intros Hin HC. apply existsb_exists. exists x. by rewrite <- list_elem_of_In.
Qed.

Lemma kegg_id_bad_entry S met l x :
  Met.annotation met !! "kegg.compound"%string = Some (AnnList l) ->
  x ∈ default [] (S !! l) -> has_C x = true -> cid_key x = None ->
  kegg_id S met = Raise ValueError.
Proof.
  intros Hann Hin HC Hkey. unfold kegg_id. rewrite Hann.
  rewrite (existsb_has_C_elem _ x) by done.
  by eapply smallest_cid_bad_entry.
Qed.

Lemma map_ids_bad_entry S mets met l x : forall s,
  met ∈ mets ->
  Met.annotation met !! "kegg.compound"%string = Some (AnnList l) ->
  x ∈ default [] (S !! l) -> has_C x = true -> cid_key x = None ->
  map_ids S mets s = Raise ValueError.
Proof.
  induction mets as [|m mets IH]; intros s Hin Hann Hx HC Hkey.
  { by apply elem_of_nil in Hin. }
  cbn [map_ids]. destruct (kegg_id S m) as [[k|]|e] eqn:Hk.
  - apply elem_of_cons in Hin as [->|Hin]; [|by apply IH].
    rewrite (kegg_id_bad_entry S m l x) in Hk by done. done.
  - apply elem_of_cons in Hin as [->|Hin]; [|by apply IH].
    rewrite (kegg_id_bad_entry S m l x) in Hk by done. done.
  - by rewrite (kegg_id_raises _ _ _ Hk).
Qed.

Lemma smallest_cid_raise_inv xs e :
  smallest_cid xs = Raise e ->
  exists x, x ∈ xs /\ has_C x = true /\ cid_key x = None.
Proof.
  unfold smallest_cid. destruct (mapM cid_key _) as [ks|] eqn:Hks; [done|].
  intros _.
  assert (~ Forall (is_Some ∘ cid_key) (filter (fun x => has_C x) xs)) as Hn.
  { rewrite <- mapM_is_Some, Hks. by intros [? [=]]. }
  apply not_Forall_Exists in Hn; [|apply _].
  apply Exists_exists in Hn as (x & [HC Hx]%list_elem_of_filter & Hkey).
  exists x. split_and!; [done|by destruct (has_C x)|].
  unfold compose in Hkey. destruct (cid_key x); [|done].
  exfalso. apply Hkey. cbn. eauto.
Qed.

Lemma kegg_id_raise_inv S met e :
  kegg_id S met = Raise e ->
  exists l x,
    Met.annotation met !! "kegg.compound"%string = Some (AnnList l) /\
    x ∈ default [] (S !! l) /\ has_C x = true /\ cid_key x = None.
Proof.
  unfold kegg_id.
  destruct (Met.annotation met !! "kegg.compound"%string) as [[a|l|]|];
    try done.
  - by destruct (has_C a).
  - destruct (existsb has_C _); [|done].
    intros (x & ? & ? & ?)%smallest_cid_raise_inv. by exists l, x.
Qed.

Lemma map_ids_raise_inv S mets : forall s e,
  map_ids S mets s = Raise e ->
  exists met, met ∈ mets /\ kegg_id S met = Raise e.
Proof.
  induction mets as [|met mets IH]; intros s e; cbn [map_ids]; [done|].
  destruct (kegg_id S met) as [[k|]|e'] eqn:Hk.
  - intros (m & ? & ?)%IH. exists m. split; [by apply list_elem_of_further|done].
  - intros (m & ? & ?)%IH. exists m. split; [by apply list_elem_of_further|done].
  - intros [= <-]. exists met. split; [apply list_elem_of_here|done].
Qed.

Lemma mapped_formula_raise_inv st rxn e :
  wf_rxn (str_lists st) rxn ->
  mapped_formula st rxn = Raise e ->
  e = ValueError /\
  exists met l x,
    met ∈ Rxn.metabolites rxn /\
    Met.annotation met !! "kegg.compound"%string = Some (AnnList l) /\
    x ∈ strs_at st l /\ has_C x = true /\ cid_key x = None.
Proof.
  intros Hwf. rewrite mapped_formula_spec by done. unfold rxn_string.
  destruct (map_ids _ _ _) as [s|e'] eqn:Hm; [done|]. intros [= <-].
  split; [by eapply map_ids_raises|].
  apply map_ids_raise_inv in Hm as (met & Hin & Hk).
  apply kegg_id_raise_inv in Hk as (l & x & ? & ? & ? & ?).
  by exists met, l, x.
Qed.

(** [lstrip] and the key of an entry with an inner ['C']. *)
Lemma has_C_lstrip x : has_C (PyStr.lstrip "C" x) = true -> has_C x = true.
Proof.
  unfold has_C. induction x as [|a x IH]; [done|].
  cbn [PyStr.lstrip]. rewrite (PyStrFacts.str_in_C_cons a x).
  destruct (Ascii.eqb a "C") eqn:Ha; [done|].
  by rewrite PyStrFacts.str_in_C_cons, Ha.
Qed.

(** An identifier with a ['C'] after its leading ['C']s has no integer key. *)
Lemma cid_key_inner_C x : has_C (PyStr.lstrip "C" x) = true -> cid_key x = None.
Proof.
  unfold cid_key, has_C. intros HC.
  destruct (PyStr.int _) as [z|] eqn:Hz; [|done].
  apply PyStrFacts.int_no_C in Hz. congruence.
Qed.

(** C6 (amended).  No exception of the mapping stage escapes: the call
    returns, and [incomplete_mapping] holds exactly the reactions of the input
    for which building the mapped string or parsing it raises, in the order of
    the input; such a reaction is in none of the other three lists, and a
    reaction for which both succeed is not in [incomplete_mapping].  Building
    the string raises nothing but the [ValueError] of [smallest_compound_ID],
    and raises it exactly when a list annotation of one of the metabolites has
    an entry that contains ['C'] and that [int] does not read once the leading
    ['C']s are stripped; this is so when what is left of the entry holds a
    character other than a digit, an underscore, a sign or white space. *)
Theorem mapping_exceptions_are_caught reactions lngamma st :
  Forall (wf_rxn (str_lists st)) (rxns_at st reactions) ->
  exists out st',
    find_incorrect_thermodynamic_reversibility reactions lngamma st
      = (Ok out, st') /\
    rxns_at st' (incomplete_mapping out)
      = filter (fun rxn => mapping_fails st rxn = true) (rxns_at st reactions) /\
    forall rxn, rxn ∈ rxns_at st reactions ->
      (mapping_fails st rxn = true <->
         (exists e, mapped_formula st rxn = Raise e) \/
         (exists s e, mapped_formula st rxn = Ok s /\
                      parse_formula s = Raise e)) /\
      (mapping_fails st rxn = true ->
         rxn ∈ rxns_at st' (incomplete_mapping out) /\
         (rxn ∉ rxns_at st' (incorrect_reversibility out)) /\
         (rxn ∉ rxns_at st' (problematic_calculation out)) /\
         (rxn ∉ rxns_at st' (unbalanced out))) /\
      (mapping_fails st rxn = false ->
         rxn ∉ rxns_at st' (incomplete_mapping out)) /\
      (forall e,
         mapped_formula st rxn = Raise e <->
         e = ValueError /\
         exists met l x,
           met ∈ Rxn.metabolites rxn /\
           Met.annotation met !! "kegg.compound"%string = Some (AnnList l) /\
           x ∈ strs_at st l /\ has_C x = true /\ cid_key x = None) /\
      (forall met l x,
         met ∈ Rxn.metabolites rxn ->
         Met.annotation met !! "kegg.compound"%string = Some (AnnList l) ->
         x ∈ strs_at st l -> has_C x = true ->
         PyStr.int_chars (PyStr.lstrip "C" x) = false ->
         mapped_formula st rxn = Raise ValueError).
Proof.
  intros Hwf. destruct (find_summary reactions lngamma st Hwf)
    as (out & st' & Hrun & Hret).
  exists out, st'. split; [done|].
  unfold returned in Hret. cbn [fmap list_fmap] in Hret.
  injection Hret as Hir Him Hpc Hub.
  assert (forall rxn, rxn ∈ rxns_at st reactions ->
            classify (str_lists st) lngamma rxn = IncompleteMapping <->
            mapping_fails st rxn = true) as Hcl.
  { intros rxn Hin.
    assert (wf_rxn (str_lists st) rxn) as Hr by (by eapply Forall_forall in Hwf).
    rewrite classify_parsed by done. unfold mapping_fails.
    destruct (parsed st rxn) as [eq_rxn|e]; [|done].
    destruct (check_full_reaction_balancing eq_rxn); [|done].
    destruct (reversibility_index eq_rxn) as [ln_RI|e]; [|done].
    by destruct (negb _). }
  assert (rxns_at st' (incomplete_mapping out)
          = filter (fun rxn => mapping_fails st rxn = true)
                   (rxns_at st reactions)) as Heq.
  { rewrite Him. apply filter_Forall_iff, Forall_forall. exact Hcl. }
  split; [exact Heq|]. intros rxn Hin.
  assert (wf_rxn (str_lists st) rxn) as Hr by (by eapply Forall_forall in Hwf).
  split_and!.
  - unfold mapping_fails, parsed.
    destruct (mapped_formula st rxn) as [s|e].
    + destruct (parse_formula s) as [eq_rxn|e] eqn:Hp.
      * split; [done|]. intros [[e [=]]|(s' & e & [= <-] & Hs)]. congruence.
      * split; [|done]. intros _. right. by exists s, e.
    + split; [|done]. intros _. left. by exists e.
  - intros Hf. pose proof (proj2 (Hcl rxn Hin) Hf) as Hc.
    rewrite Heq, Hir, Hpc, Hub, !list_elem_of_filter, Hc. split_and!; try done.
    all: by intros [[=] _].
  - intros Hf. rewrite Heq, list_elem_of_filter. intros [Ht _]. congruence.
  - intros e. split; [by apply mapped_formula_raise_inv|].
    intros [-> (met & l & x & Hmet & Hann & Hx & HC & Hkey)].
    rewrite mapped_formula_spec by done. unfold rxn_string.
    by rewrite (map_ids_bad_entry _ _ met l x).
  - intros met l x Hmet Hann Hx HC Hch.
    rewrite mapped_formula_spec by done. unfold rxn_string.
    rewrite (map_ids_bad_entry _ _ met l x); try done.
    unfold cid_key. destruct (PyStr.int _ _) as [z|] eqn:Hz; [|done].
    apply PyStrFacts.int_int_chars in Hz. congruence.
Qed.

End Claims.

(** ** The claims about [smallest_compound_ID] and [get_equilibrator_rxn_string] *)

Section MappingClaims.
Context `{PY : Interpreter} `{API : Equilibrator}.

(** *** [smallest_compound_ID] *)

Lemma Forall_cid_key cs :
  Forall (fun x => is_Some (cid_key x)) cs <-> is_Some (mapM cid_key cs).
Proof. symmetry. apply (mapM_is_Some cid_key). Qed.

Lemma keyed_zip cs ks :
  Forall2 (fun x k => cid_key x = Some k) cs ks -> Forall keyed (zip ks cs).
Proof. induction 1; constructor; done. Qed.

Lemma keyed_sorted ps :
  Forall keyed ps -> StronglySorted key_le ps -> StronglySorted cid_le ps.*2.
Proof.
  induction 1 as [|[k x] ps Hk Hps IH]; intros Hs; [constructor|].
  apply StronglySorted_cons in Hs as [Hall Hs]. cbn [fmap list_fmap].
  apply StronglySorted_cons. split; [|auto].
  apply Forall_fmap, Forall_forall. intros [k' y] Hy.
  rewrite Forall_forall in Hall, Hps.
  exists k, k'. split_and!; [done|by apply Hps|by apply (Hall (k', y))].
Qed.

Lemma keyed_filter k ps :
  Forall keyed ps ->
  filter (fun x => cid_key x = Some k) ps.*2 = (filter (fun p => p.1 = k) ps).*2.
Proof.
  induction 1 as [|[k' x] ps Hk Hps IH]; [done|].
  cbn [fmap list_fmap]. rewrite !filter_cons, IH. unfold keyed in Hk.
  cbn [fst snd] in *.
  repeat case_decide; try done; congruence.
Qed.

Lemma sorted_cids_spec cs ks :
  mapM cid_key cs = Some ks ->
  let ys := (sort_keyed (zip ks cs)).*2 in
  ys ≡ₚ cs /\
  StronglySorted cid_le ys /\
  forall k, filter (fun x => cid_key x = Some k) ys
            = filter (fun x => cid_key x = Some k) cs.
Proof.
  intros Hks. pose proof (length_mapM _ _ _ Hks) as Hlen.
  apply mapM_Some, keyed_zip in Hks.
  assert ((zip ks cs).*2 = cs) as Hsnd by (apply snd_zip; lia).
  assert (Forall keyed (sort_keyed (zip ks cs))) as Hks'.
  { by rewrite sort_keyed_perm. }
  cbn zeta. split_and!.
  - by rewrite sort_keyed_perm, Hsnd.
  - apply keyed_sorted; [done | apply sort_keyed_sorted].
  - intros k. rewrite keyed_filter, sort_keyed_stable, <- keyed_filter by done.
    by rewrite Hsnd.
Qed.

(** C7 (amended).  [smallest_compound_ID] keeps the entries of its argument
    that contain ['C'] anywhere.  When each of them is an integer after its
    leading ['C']s, it returns a new list with exactly these entries, in
    ascending order of that integer, entries with equal integers in their
    original order.  Otherwise it raises [ValueError] and returns no list; this
    is the case whenever an entry has a ['C'] after its leading ['C']s, since
    such an entry passes the filter and has no integer key. *)
Theorem smallest_compound_ID_sorts_or_raises l st :
  let cs := filter (fun x => has_C x) (strs_at st l) in
  (Forall (fun x => is_Some (cid_key x)) cs ->
     exists l' st',
       smallest_compound_ID l st = (Ok l', st') /\
       strs_at st' l' ≡ₚ cs /\
       StronglySorted cid_le (strs_at st' l') /\
       forall k, filter (fun x => cid_key x = Some k) (strs_at st' l')
                 = filter (fun x => cid_key x = Some k) cs) /\
  (~ Forall (fun x => is_Some (cid_key x)) cs ->
     exists st', smallest_compound_ID l st = (Raise ValueError, st')) /\
  (forall x, x ∈ strs_at st l -> has_C (PyStr.lstrip "C" x) = true ->
     x ∈ cs /\ cid_key x = None).
Proof.
  intros cs. rewrite smallest_compound_ID_run. fold cs. cbn zeta.
  rewrite (Forall_cid_key cs).
  destruct (mapM cid_key cs) as [ks|] eqn:Hks; split_and!.
  - intros _. eexists _, _. split; [done|].
    unfold strs_at at 1 2 3. cbn [str_lists].
    rewrite list_lookup_middle by done. cbn [default].
    by apply sorted_cids_spec.
  - intros []. eauto.
  - intros x Hx HC. split; [|by apply cid_key_inner_C].
    apply list_elem_of_filter. split; [|done]. by rewrite has_C_lstrip.
  - by intros [? [=]].
  - eauto.
  - intros x Hx HC. split; [|by apply cid_key_inner_C].
    apply list_elem_of_filter. split; [|done]. by rewrite has_C_lstrip.
Qed.

(** *** [get_equilibrator_rxn_string] *)



(** C8.  Neither function changes a list object it was given: after a call
    every list object of the store is where it was, with the content it had
    (this covers the input list of reactions and the annotation lists), and
    the four result lists are new objects.  The attributes of reactions and
    metabolites are never assigned, and the mapped string is a value of its
    own. *)
Theorem inputs_are_not_modified rxn reactions lngamma st :
  (exists r st',
     get_equilibrator_rxn_string rxn st = (r, st') /\
     extends st st' /\ rxn_lists st' = rxn_lists st) /\
  (exists out st',
     find_incorrect_thermodynamic_reversibility reactions lngamma st
       = (Ok out, st') /\
     extends st st' /\
     (forall l, l < length (str_lists st) -> strs_at st' l = strs_at st l)%nat /\
     (forall l, l < length (rxn_lists st) -> rxns_at st' l = rxns_at st l)%nat /\
     (forall o l, bucket_of out o = Some l -> length (rxn_lists st) <= l)%nat).
Proof.
  split.
  - destruct (get_equilibrator_rxn_string_frame rxn st) as [junk Hf].
    destruct (get_equilibrator_rxn_string rxn st) as [r st'].
    cbn in Hf. subst st'. eexists _, _. split; [done|].
    split; [by apply extends_adds | done].
  - destruct (find_incorrect_thermodynamic_reversibility_frame reactions
                lngamma st) as (junk & a & b & c & d & Hrun).
    eexists _, _. split; [exact Hrun|]. split_and!.
    + apply extends_adds. by apply prefix_app_r.
    + intros l Hl. unfold strs_at. cbn. by rewrite lookup_app_l.
    + intros l Hl. unfold rxns_at. cbn. by rewrite lookup_app_l.
    + intros o l. destruct o; cbn; intros [= <-]; lia.
Qed.

Lemma returned_at S' R a b c d more :
  returned (Store S' (R ++ [a; b; c; d] ++ more)) (result_locs (length R))
  = [c; a; b; d].
Proof.
  unfold returned, rxns_at, result_locs. cbn.
  rewrite !lookup_app_r by lia.
  replace (S (S (length R)) - length R)%nat with 2%nat by lia.
  replace (S (length R) - length R)%nat with 1%nat by lia.
  replace (S (S (S (length R))) - length R)%nat with 3%nat by lia.
  by rewrite Nat.sub_diag.
Qed.

Lemma returned_at_end S' R a b c d :
  returned (Store S' (R ++ [a; b; c; d])) (result_locs (length R))
  = [c; a; b; d].
Proof. by rewrite <- (returned_at S' R a b c d []). Qed.

(** C9.  With the API fixed, a second call on the same list of reactions and
    the same [lngamma], made in the store the first call left, returns four
    lists with the contents of the first four, which are still intact. *)
Theorem two_runs_return_the_same_lists reactions lngamma st :
  Forall (wf_rxn (str_lists st)) (rxns_at st reactions) ->
  (reactions < length (rxn_lists st))%nat ->
  exists out1 st1 out2 st2,
    find_incorrect_thermodynamic_reversibility reactions lngamma st
      = (Ok out1, st1) /\
    find_incorrect_thermodynamic_reversibility reactions lngamma st1
      = (Ok out2, st2) /\
    returned st2 out2 = returned st1 out1 /\
    returned st2 out1 = returned st1 out1.
Proof.
  intros Hwf Hlt.
  destruct (find_incorrect_thermodynamic_reversibility_run (str_lists st)
              reactions lngamma st) as [junk Hrun]; [done..|].
  set (xs := rxns_at st reactions) in *.
  set (f := classify (str_lists st) lngamma) in *.
  set (st1 := Store (str_lists st ++ junk) (rxn_lists st ++ result_lists f xs))
    in *.
  assert (rxns_at st1 reactions = xs) as Hxs.
  { unfold rxns_at, st1. cbn [rxn_lists]. by rewrite lookup_app_l. }
  destruct (find_incorrect_thermodynamic_reversibility_run (str_lists st)
              reactions lngamma st1) as [junk' Hrun'].
  { by apply prefix_app_r. }
  { by rewrite Hxs. }
  rewrite Hxs in Hrun'. fold f in Hrun'.
  eexists _, _, _, _. split; [exact Hrun|]. split; [exact Hrun'|].
  unfold st1, result_lists. cbn [rxn_lists str_lists]. split.
  - by rewrite !returned_at_end.
  - by rewrite <- !(assoc_L (++)), returned_at, returned_at_end.
Qed.

Lemma for_each_app {A B} (body : A -> B -> M B) xs ys b st :
  for_each (xs ++ ys) body b st
  = (b' <- for_each xs body b ;; for_each ys body b') st.
Proof.
  revert b st. induction xs as [|x xs IH]; intros b st; [done|].
  cbn [for_each app]. unfold bind in *.
  destruct (body x b st) as [[b'|e] st']; [|done]. apply IH.
Qed.

Lemma name_lookup_fails_match met : name_lookup_fails met -> name_match met = None.
Proof.
  unfold name_lookup_fails, name_match.
  destruct (Met.name met) as [[|a n]|]; try done.
  destruct (COMPOUND_MATCHER_match _) as [df|e]; [|done].
  by intros [e ->].
Qed.

Lemma map_metabolite_skip met s st :
  no_usable_annotation st met -> name_lookup_fails met ->
  map_metabolite met s st = (Ok s, st).
Proof.
  intros Hann Hname. unfold map_metabolite. unfold no_usable_annotation in Hann.
  destruct (Met.annotation met !! "kegg.compound"%string) as [[a|l|]|];
    rewrite ?bind_read_str_list, ?Hann, match_by_name_run,
      (name_lookup_fails_match met Hname); done.
Qed.

Lemma no_usable_annotation_extends st st' met :
  wf_met (str_lists st) met -> str_lists st `prefix_of` str_lists st' ->
  no_usable_annotation st met -> no_usable_annotation st' met.
Proof.
  unfold wf_met, no_usable_annotation. intros Hwf Hpre.
  destruct (Met.annotation met !! "kegg.compound"%string) as [[a|l|]|]; try done.
  by rewrite (strs_at_prefix _ st' l Hpre Hwf).
Qed.

(** What holds of a metabolite that no rule maps: with no usable annotation
    and a falsy name, or a name whose lookup raises, its turn of the loop
    returns the string unchanged, raises nothing and writes nothing, so the
    function returns what it returns without that metabolite. *)
Lemma unmatched_metabolite_is_skipped rxn ms1 met ms2 st :
  Rxn.metabolites rxn = ms1 ++ met :: ms2 ->
  wf_met (str_lists st) met ->
  no_usable_annotation st met ->
  name_lookup_fails met ->
  (forall s st', str_lists st `prefix_of` str_lists st' ->
     map_metabolite met s st' = (Ok s, st')) /\
  get_equilibrator_rxn_string rxn st
  = get_equilibrator_rxn_string
      (Rxn.Build (Rxn.reaction rxn) (ms1 ++ ms2) (Rxn.reversibility rxn)) st.
Proof.
  intros Hms Hwf Hann Hname.
  assert (forall s st', str_lists st `prefix_of` str_lists st' ->
            map_metabolite met s st' = (Ok s, st')) as Hskip.
  { intros s st' Hpre. apply map_metabolite_skip; [|done].
    by eapply no_usable_annotation_extends. }
  split; [done|].
  unfold get_equilibrator_rxn_string, bind. cbn [Rxn.metabolites Rxn.reaction].
  rewrite Hms, !for_each_app. unfold bind.
  destruct (for_each_frame map_metabolite ms1 (Rxn.reaction rxn) st)
    as [junk Hf]; [intros; apply map_metabolite_frame|].
  destruct (for_each ms1 map_metabolite (Rxn.reaction rxn) st) as [[s|e] st1];
    [|done].
  cbn in Hf. subst st1. cbn [for_each]. unfold bind.
  rewrite Hskip; [done|]. cbn. by apply prefix_app_r.
Qed.

End MappingClaims.

(** ** The mapped string, token by token *)

Section TokenClaims.
Context `{PY : Interpreter} `{API : Equilibrator}.

Lemma str_in_refl s : PyStr.str_in s s = true.
Proof.
  destruct s as [|a s]; [done|]. cbn [PyStr.str_in].
  rewrite <- (PyStrTokens.append_nil_r (String a s)) at 2.
  by rewrite PyStrTokens.prefix_app.
Qed.

Lemma token_id_fresh S mets k :
  Forall (fun met => PyStr.str_in (Met.id met) k = false) mets ->
  token_id S mets k = k.
Proof.
  induction 1 as [|met mets Hk _ IH]; [done|]. cbn [token_id].
  destruct (decide (k = Met.id met)) as [->|]; [|done].
  by rewrite str_in_refl in Hk.
Qed.

Lemma map_ids_tokens S mets : forall toks,
  Forall (fun met => plain_id (Met.id met)) mets ->
  whole_tokens toks mets ->
  chosen_apart S mets ->
  Forall (fun met => exists k, kegg_id S met = Ok k) mets ->
  map_ids S mets (String.concat " " toks)
  = Ok (String.concat " " (token_id S mets <$> toks)).
Proof.
  induction mets as [|met mets IH]; intros toks Hid Htok Hap Hok.
  { cbn [map_ids]. f_equal. f_equal. clear.
    induction toks as [|t toks IHt]; [done|].
    cbn [fmap list_fmap token_id]. by f_equal. }
  apply Forall_cons in Hid as [[Hne Hsp] Hid].
  apply Forall_cons in Hok as [[k Hk] Hok].
  destruct Hap as [Hfresh Hap]. cbn [map_ids]. rewrite Hk.
  assert (whole_tokens toks mets) as Htok'.
  { eapply Forall_impl; [exact Htok|]. by intros t [_ ?]%Forall_cons. }
  destruct k as [k|].
  - rewrite PyStrTokens.replace_concat; [|done..|].
    2:{ eapply Forall_impl; [exact Htok|]. by intros t [? _]%Forall_cons. }
    rewrite IH; [|done| |done..].
    + f_equal. f_equal. rewrite <- list_fmap_compose.
      apply list_fmap_ext. intros i t _. cbn [compose token_id].
      unfold PyStr.swap_token. rewrite Hk.
      destruct (decide (t = Met.id met)); [|done].
      apply token_id_fresh. by apply Hfresh.
    + apply Forall_fmap, Forall_forall. intros t Ht. cbn [compose].
      unfold PyStr.swap_token. destruct (decide (t = Met.id met)).
      * eapply Forall_impl; [by apply Hfresh|]. by right.
      * unfold whole_tokens in Htok'. rewrite Forall_forall in Htok'. auto.
  - rewrite IH by done. f_equal. f_equal. apply list_fmap_ext.
    intros i t _. cbn [token_id]. rewrite Hk. by destruct (decide _).
Qed.

Lemma map_ids_Exists_raise S mets : forall s,
  Exists (fun met => exists e, kegg_id S met = Raise e) mets ->
  map_ids S mets s = Raise ValueError.
Proof.
  induction mets as [|met mets IH]; intros s Hex.
  { by apply Exists_nil in Hex. }
  cbn [map_ids]. destruct (kegg_id S met) as [[k|]|e] eqn:Hk.
  - apply Exists_cons in Hex as [[e He]|Hex]; [congruence | by apply IH].
  - apply Exists_cons in Hex as [[e He]|Hex]; [congruence | by apply IH].
  - by rewrite (kegg_id_raises _ _ _ Hk).
Qed.



Lemma arrows_tokens ts :
  Forall arrow_free ts ->
  arrows (String.concat " " ts) = String.concat " " (arrow_token <$> ts).
Proof.
  intros Hts. unfold arrows.
  rewrite PyStrTokens.replace_concat; [|done|done|].
  2:{ eapply Forall_impl; [exact Hts|]. by intros t [? _]. }
  rewrite PyStrTokens.replace_concat; [|done|done|].
  - f_equal. rewrite <- list_fmap_compose. apply list_fmap_ext.
    intros i t _. unfold compose, PyStr.swap_token, arrow_token.
    repeat case_decide; simplify_eq; done.
  - apply Forall_fmap. eapply Forall_impl; [exact Hts|].
    intros t [_ Hl]. unfold compose, PyStr.swap_token.
    case_decide; [by right | done].
Qed.




End TokenClaims.

(** ** Further properties of [smallest_compound_ID] *)

Section MoreSorting.
Context `{PY : Interpreter}.

Lemma StronglySorted_Forall_impl {A} (R R' : A -> A -> Prop) (P : A -> Prop) l :
  (forall a b, P a -> P b -> R a b -> R' a b) ->
  Forall P l -> StronglySorted R l -> StronglySorted R' l.
Proof.
  intros HR. induction 1 as [|x l Hx Hl IH]; intros Hs; [constructor|].
  apply StronglySorted_cons in Hs as [Hall Hs].
  apply StronglySorted_cons. split; [|auto].
  rewrite Forall_forall in Hall, Hl. apply Forall_forall. intros y Hy. auto.
Qed.

(** Sorting a sorted list changes nothing. *)
Lemma insert_keyed_least {A} k (x : A) l :
  Forall (key_le (k, x)) l -> insert_keyed k x l = (k, x) :: l.
Proof.
  destruct 1 as [|[k' y] l Hle _]; [done|]. cbn [insert_keyed].
  unfold key_le in Hle. cbn in Hle. by rewrite (proj2 (Z.leb_le k k')).
Qed.

Lemma sort_keyed_sorted_id {A} (l : list (Z * A)) :
  StronglySorted key_le l -> sort_keyed l = l.
Proof.
  induction l as [|[k x] l IH]; intros Hs; [done|].
  apply StronglySorted_cons in Hs as [Hall Hs].
  rewrite sort_keyed_cons, IH by done. by apply insert_keyed_least.
Qed.

Lemma keyed_mapM ps : Forall keyed ps -> mapM cid_key ps.*2 = Some ps.*1.
Proof.
  intros Hps. apply mapM_Some. induction Hps as [|[k x] ps Hk _ IH]; constructor; done.
Qed.

Lemma zip_fst_snd {A B} (ps : list (A * B)) : zip ps.*1 ps.*2 = ps.
Proof. induction ps as [|[a b] ps IH]; [done|]. cbn. by rewrite IH. Qed.

End MoreSorting.

Section KeggIds.
Context `{PY : Interpreter}.

Lemma is_digit_val a : is_digit a = true -> exists d, PyStr.digit_val a = Some d.
Proof. unfold is_digit. destruct (PyStr.digit_val a); [eauto|done]. Qed.

Lemma all_digits_no_C s : all_digits s = true -> has_C s = false.
Proof.
  unfold has_C. induction s as [|a s IH]; [done|]. cbn [all_digits].
  intros [[d Hd]%is_digit_val Hs]%andb_prop.
  by rewrite PyStrFacts.str_in_C_cons, (PyStrFacts.digit_not_C a d Hd), IH.
Qed.

Lemma int_digits_all_digits s : forall acc prev,
  all_digits s = true -> s <> EmptyString \/ prev = true ->
  PyStr.int_digits acc prev s = Some (digits_value acc s).
Proof.
  induction s as [|a s IH]; intros acc prev Hs Hne.
  { destruct Hne as [?|Hp]; [done|by subst prev]. }
  cbn [all_digits] in Hs. apply andb_prop in Hs as [[d Hd]%is_digit_val Hs].
  cbn [PyStr.int_digits digits_value]. rewrite Hd. cbn [default].
  apply IH; [done | by right].
Qed.

Lemma int_all_digits m a s :
  all_digits (String a s) = true ->
  PyStr.over_limit m (PyStr.count_digits (String a s)) = false ->
  PyStr.int m (String a s) = Some (digits_value 0 (String a s)).
Proof.
  intros Hs Hlim.
  assert (PyStr.int_literal m (String a s)
          = Some (digits_value 0 (String a s))) as <-.
  { unfold PyStr.int_literal.
    by rewrite (int_digits_all_digits _ 0%Z false Hs), Hlim by (by left). }
  cbn [all_digits] in Hs. apply andb_prop in Hs as [Ha _].
  unfold PyStr.int. destruct a as [[] [] [] [] [] [] [] []]; done.
Qed.

Lemma lstrip_C_digits a s :
  is_digit a = true -> PyStr.lstrip "C" (String a s) = String a s.
Proof.
  intros [d Hd]%is_digit_val. cbn [PyStr.lstrip].
  by rewrite (PyStrFacts.digit_not_C a d Hd).
Qed.

(** A KEGG identifier contains ['C'] exactly when it starts with it, and a
    compound ID has its number as key. *)
Lemma kegg_shaped_has_C x :
  kegg_shaped x = true -> has_C x = String.prefix "C" x.
Proof.
  destruct x as [|c [|d ds]]; try done. cbn [kegg_shaped].
  intros [Hc Hds]%andb_prop. unfold has_C.
  rewrite PyStrFacts.str_in_C_cons.
  change (PyStr.str_in "C" (String d ds)) with (has_C (String d ds)).
  rewrite (all_digits_no_C _ Hds), orb_false_r. cbn [String.prefix].
  destruct (ascii_dec "C" c) as [<-|Hne]; [done|].
  destruct (Ascii.eqb_spec c "C"); [congruence|done].
Qed.

Lemma kegg_identifier_key x :
  kegg_identifier x = true -> has_C x = true -> cid_key x = Some (kegg_number x).
Proof.
  intros [Hx Hlim]%andb_prop HC. rewrite (kegg_shaped_has_C x Hx) in HC.
  apply negb_true_iff in Hlim.
  destruct x as [|c [|d ds]]; try done. cbn [kegg_shaped] in Hx.
  apply andb_prop in Hx as [_ Hds]. cbn [String.prefix] in HC.
  destruct (ascii_dec "C" c) as [<-|]; [|done].
  change (PyStr.count_digits (String "C" (String d ds)))
    with (PyStr.count_digits (String d ds)) in Hlim.
  unfold cid_key, kegg_number.
  change (PyStr.lstrip "C" (String "C" (String d ds)))
    with (PyStr.lstrip "C" (String d ds)).
  pose proof Hds as Hds'. cbn [all_digits] in Hds'.
  apply andb_prop in Hds' as [Hd _].
  rewrite lstrip_C_digits by done. by apply int_all_digits.
Qed.

(** X1.  On a list of KEGG identifiers (a letter among C, D, G, then digits,
    no more of them than [int] reads) [smallest_compound_ID] does not raise,
    and the list it returns holds exactly the identifiers that start with
    ['C'], in ascending order of their numbers. *)
Theorem smallest_compound_ID_on_kegg_ids l st :
  Forall (fun x => kegg_identifier x = true) (strs_at st l) ->
  exists l' st',
    smallest_compound_ID l st = (Ok l', st') /\
    strs_at st' l'
      ≡ₚ filter (fun x => String.prefix "C" x = true) (strs_at st l) /\
    StronglySorted (fun a b => (kegg_number a <= kegg_number b)%Z)
                   (strs_at st' l').
Proof.
  intros Hk. set (xs := strs_at st l) in *.
  set (cs := filter (fun x => has_C x) xs).
  assert (Forall (fun x => cid_key x = Some (kegg_number x)) cs) as Hkeys.
  { apply Forall_forall. intros x [HC Hx]%list_elem_of_filter.
    rewrite Forall_forall in Hk. apply kegg_identifier_key; [auto|].
    by destruct (has_C x). }
  assert (cs = filter (fun x => String.prefix "C" x = true) xs) as Hcs.
  { apply filter_Forall_iff. eapply Forall_impl; [exact Hk|].
    intros x [Hx _]%andb_prop. cbn. rewrite (kegg_shaped_has_C x Hx).
    by destruct (String.prefix "C" x). }
  rewrite smallest_compound_ID_run. fold xs cs. cbn zeta.
  destruct (mapM cid_key cs) as [ks|] eqn:Hks.
  2:{ assert (is_Some (mapM cid_key cs)) as [? ?]; [|congruence].
      apply mapM_is_Some. eapply Forall_impl; [exact Hkeys|].
      intros x Hx. unfold compose. rewrite Hx. by eexists. }
  eexists _, _. split; [done|]. unfold strs_at at 1 2. cbn [str_lists].
  rewrite list_lookup_middle by done. cbn [default].
  destruct (sorted_cids_spec cs ks Hks) as (Hperm & Hsort & _).
  split; [by rewrite Hperm, Hcs|].
  eapply (StronglySorted_Forall_impl cid_le _
            (fun x => cid_key x = Some (kegg_number x))); [|by rewrite Hperm|done].
  intros a b Ha Hb (ka & kb & Hka & Hkb & Hle). congruence.
Qed.

(** X2.  [smallest_compound_ID] sorts a copy: whether it returns or raises
    [ValueError], the store afterwards is the one before with one new list
    object, so the argument and every other list read as before; when it
    returns, it returns the new object. *)
Theorem smallest_compound_ID_leaves_argument l st :
  exists r ys,
    smallest_compound_ID l st
      = (r, Store (str_lists st ++ [ys]) (rxn_lists st)) /\
    (r = Ok (length (str_lists st)) \/ r = Raise ValueError) /\
    forall l0, (l0 < length (str_lists st))%nat ->
      strs_at (Store (str_lists st ++ [ys]) (rxn_lists st)) l0 = strs_at st l0.
Proof.
  rewrite smallest_compound_ID_run. cbn zeta.
  destruct (mapM cid_key _) as [ks|]; eexists _, _;
    (split; [done|]); (split; [by eauto|]);
    intros l0 Hl0; unfold strs_at; cbn [str_lists]; by rewrite lookup_app_l.
Qed.

(** X3.  Applied to its own result, [smallest_compound_ID] returns a list
    with the same entries in the same order. *)
Theorem smallest_compound_ID_idempotent l st l1 st1 :
  smallest_compound_ID l st = (Ok l1, st1) ->
  exists l2 st2,
    smallest_compound_ID l1 st1 = (Ok l2, st2) /\
    strs_at st2 l2 = strs_at st1 l1.
Proof.
  rewrite smallest_compound_ID_run. cbn zeta.
  set (cs := filter (fun x => has_C x) (strs_at st l)).
  destruct (mapM cid_key cs) as [ks|] eqn:Hks; [|done].
  intros [= <- <-]. set (ps := sort_keyed (zip ks cs)).
  assert (Forall keyed ps) as Hps.
  { unfold ps. rewrite sort_keyed_perm. by apply keyed_zip, mapM_Some. }
  assert (strs_at (Store (str_lists st ++ [ps.*2]) (rxn_lists st))
                  (length (str_lists st)) = ps.*2) as Hys.
  { unfold strs_at. cbn [str_lists]. by rewrite list_lookup_middle. }
  assert (filter (fun x => has_C x) ps.*2 = ps.*2) as Hfil.
  { destruct (sorted_cids_spec cs ks Hks) as (Hperm & _ & _). fold ps in Hperm.
    assert (Forall (fun x => has_C x) ps.*2) as Hall.
    { rewrite Hperm. apply Forall_forall. by intros x [? _]%list_elem_of_filter. }
    clear -Hall. induction Hall as [|x xs Hx _ IH]; [done|].
    by rewrite filter_cons, decide_True, IH. }
  rewrite smallest_compound_ID_run, Hys, Hfil. cbn zeta.
  rewrite (keyed_mapM ps Hps), zip_fst_snd.
  rewrite (sort_keyed_sorted_id ps) by apply sort_keyed_sorted.
  eexists _, _. split; [done|]. unfold strs_at. cbn [str_lists].
  by rewrite !list_lookup_middle by done.
Qed.

End KeggIds.

(** ** Further properties of [get_equilibrator_rxn_string] *)

Section MoreMapping.
Context `{PY : Interpreter} `{API : Equilibrator}.

(** X4.  On a well-formed reaction [get_equilibrator_rxn_string] raises
    nothing but [ValueError] (never the [IndexError] of the subscript [[0]]),
    and it raises exactly when a list annotation of one of the metabolites has
    an entry that contains ['C'] and is no integer after its leading
    ['C']s. *)
Theorem rxn_string_raises_iff rxn st e :
  wf_rxn (str_lists st) rxn ->
  mapped_formula st rxn = Raise e <->
  e = ValueError /\
  exists met l x,
    met ∈ Rxn.metabolites rxn /\
    Met.annotation met !! "kegg.compound"%string = Some (AnnList l) /\
    x ∈ strs_at st l /\ has_C x = true /\ cid_key x = None.
Proof.
  intros Hwf. split; [by apply mapped_formula_raise_inv|].
  intros [-> (met & l & x & Hin & Hann & Hx & HC & Hkey)].
  rewrite mapped_formula_spec by done. unfold rxn_string.
  by rewrite (map_ids_bad_entry _ _ met l x).
Qed.

(** X5.  When every list annotation of the reaction holds KEGG identifiers
    only (a letter among C, D, G, then digits, no more of them than [int]
    reads), [get_equilibrator_rxn_string] returns a string. *)
Theorem kegg_annotations_never_raise rxn st :
  wf_rxn (str_lists st) rxn ->
  Forall (kegg_annotated st) (Rxn.metabolites rxn) ->
  exists s, mapped_formula st rxn = Ok s.
Proof.
  intros Hwf Hk. destruct (mapped_formula st rxn) as [s|e] eqn:Hm; [eauto|].
  exfalso.
  apply mapped_formula_raise_inv in Hm
    as [_ (met & l & x & Hin & Hann & Hx & HC & Hkey)]; [|done].
  rewrite Forall_forall in Hk. specialize (Hk met Hin).
  unfold kegg_annotated in Hk. rewrite Hann in Hk.
  rewrite Forall_forall in Hk.
  rewrite (kegg_identifier_key x) in Hkey; [done|by apply Hk|done].
Qed.

Lemma for_each_skip mets s st :
  Forall (fun met => no_usable_annotation st met /\ name_lookup_fails met) mets ->
  for_each mets map_metabolite s st = (Ok s, st).
Proof.
  induction 1 as [|met mets [Hann Hname] _ IH]; [done|].
  cbn [for_each]. unfold bind. by rewrite map_metabolite_skip.
Qed.

(** X6.  When no metabolite of the reaction can be mapped (no usable
    annotation, and a falsy name or a failing lookup), the function creates no
    list and returns the reaction string with its arrow tokens rewritten,
    [-->] to [->] and [<--] to [<-], every other token as it was. *)
Theorem unmapped_reaction_only_rewrites_arrows rxn st ts :
  Rxn.reaction rxn = String.concat " " ts ->
  Forall arrow_free ts ->
  Forall (fun met => no_usable_annotation st met /\ name_lookup_fails met)
         (Rxn.metabolites rxn) ->
  get_equilibrator_rxn_string rxn st
  = (Ok (String.concat " " (arrow_token <$> ts)), st).
Proof.
  intros Hts Hfree Hskip. unfold get_equilibrator_rxn_string, bind.
  rewrite for_each_skip by done. unfold ret.
  fold (arrows (Rxn.reaction rxn)). by rewrite Hts, arrows_tokens.
Qed.

Lemma token_id_perm S mets mets' t :
  NoDup (Met.id <$> mets) -> mets ≡ₚ mets' ->
  token_id S mets t = token_id S mets' t.
Proof.
  intros Hnd Hp. induction Hp as [|m l l' Hp IH|m1 m2 l|l1 l2 l3 Hp1 IH1 Hp2 IH2].
  - done.
  - cbn [fmap list_fmap] in Hnd. apply NoDup_cons in Hnd as [_ Hnd].
    cbn [token_id]. by rewrite IH.
  - cbn [fmap list_fmap] in Hnd. apply NoDup_cons in Hnd as [Hne _].
    cbn [token_id].
    destruct (decide (t = Met.id m1)) as [->|]; [|done].
    destruct (decide (Met.id m1 = Met.id m2)) as [Heq|]; [|done].
    exfalso. apply Hne. rewrite <- Heq. apply list_elem_of_here.
  - rewrite IH1 by done. apply IH2. by rewrite <- Hp1.
Qed.

Lemma apart_all_chosen_apart S mets : apart_all S mets -> chosen_apart S mets.
Proof.
  unfold apart_all. intros H.
  assert (forall sub, sub `suffix_of` mets ->
            Forall (fun met => forall k, kegg_id S met = Ok (Some k) ->
              Forall (fun met' => PyStr.str_in (Met.id met') k = false) sub)
              sub -> chosen_apart S sub) as Hgen.
  { clear. induction sub as [|m sub IH]; intros Hsuf Hall; [done|].
    apply Forall_cons in Hall as [Hm Hall]. split.
    - intros k Hk. specialize (Hm k Hk). by apply Forall_cons in Hm as [_ ?].
    - apply IH; [by eapply suffix_cons_l|].
      eapply Forall_impl; [exact Hall|]. intros m' Hm' k Hk.
      specialize (Hm' k Hk). by apply Forall_cons in Hm' as [_ ?]. }
  by apply Hgen.
Qed.

Lemma apart_all_perm S mets mets' :
  mets ≡ₚ mets' -> apart_all S mets -> apart_all S mets'.
Proof.
  unfold apart_all. intros Hp H. rewrite <- Hp.
  eapply Forall_impl; [exact H|]. intros m Hm k Hk. rewrite <- Hp. auto.
Qed.

Lemma kegg_id_all_or_some S mets :
  Forall (fun met => exists k, kegg_id S met = Ok k) mets \/
  Exists (fun met => exists e, kegg_id S met = Raise e) mets.
Proof.
  induction mets as [|m mets [IH|IH]]; [by left| |].
  - destruct (kegg_id S m) as [k|e] eqn:Hk.
    + left. constructor; eauto.
    + right. apply Exists_cons_hd. eauto.
  - right. by apply Exists_cons_tl.
Qed.

(** X7.  The order in which the metabolites are visited is of no
    consequence when the ids are distinct, none is a proper part of a token
    and none occurs in a chosen identifier: the function returns, or raises,
    the same for any rearrangement of the metabolites. *)
Theorem metabolite_order_is_irrelevant rxn mets' st ts :
  wf_rxn (str_lists st) rxn ->
  Rxn.reaction rxn = String.concat " " ts ->
  Forall (fun met => plain_id (Met.id met)) (Rxn.metabolites rxn) ->
  whole_tokens ts (Rxn.metabolites rxn) ->
  apart_all (str_lists st) (Rxn.metabolites rxn) ->
  NoDup (Met.id <$> Rxn.metabolites rxn) ->
  Rxn.metabolites rxn ≡ₚ mets' ->
  mapped_formula st (with_metabolites rxn mets') = mapped_formula st rxn.
Proof.
  intros Hwf Hts Hid Htok Hap Hnd Hp.
  assert (wf_rxn (str_lists st) (with_metabolites rxn mets')) as Hwf'.
  { unfold wf_rxn in *. cbn. by rewrite <- Hp. }
  rewrite !mapped_formula_spec by done. unfold rxn_string. cbn.
  rewrite Hts.
  destruct (kegg_id_all_or_some (str_lists st) (Rxn.metabolites rxn))
    as [Hok|Hex].
  - rewrite !map_ids_tokens; try done.
    + assert (token_id (str_lists st) mets' <$> ts
              = token_id (str_lists st) (Rxn.metabolites rxn) <$> ts) as ->;
        [|done].
      apply list_fmap_ext. intros i t _. symmetry. by apply token_id_perm.
    + by apply apart_all_chosen_apart.
    + by rewrite <- Hp.
    + unfold whole_tokens in *. eapply Forall_impl; [exact Htok|].
      intros t Ht. by rewrite <- Hp.
    + by apply apart_all_chosen_apart, (apart_all_perm _ _ _ Hp).
    + by rewrite <- Hp.
  - rewrite !map_ids_Exists_raise; [done|done|by rewrite <- Hp].
Qed.

End MoreMapping.

(** ** Further properties of [find_incorrect_thermodynamic_reversibility] *)

Section MoreFind.
Context `{PY : Interpreter} `{API : Equilibrator}.

Lemma classify_lngamma S g1 g2 rxn o :
  o <> IncorrectReversibility -> o <> Agrees ->
  classify S g1 rxn = o <-> classify S g2 rxn = o.
Proof.
  intros H1 H2. unfold classify.
  destruct (rxn_string S rxn) as [s|]; [|done].
  destruct (parse_formula s) as [eq_rxn|]; [|done].
  destruct (check_full_reaction_balancing eq_rxn); [|done].
  destruct (reversibility_index eq_rxn) as [v|]; [|done].
  do 2 destruct (negb _); split; intros <-; done.
Qed.

(** X8.  [lngamma] bears on [incorrect_reversibility] only: with another
    threshold the lists [incomplete_mapping], [problematic_calculation] and
    [unbalanced] come out the same. *)
Theorem lngamma_only_decides_incorrect reactions g1 g2 st :
  Forall (wf_rxn (str_lists st)) (rxns_at st reactions) ->
  exists out1 st1 out2 st2,
    find_incorrect_thermodynamic_reversibility reactions g1 st = (Ok out1, st1) /\
    find_incorrect_thermodynamic_reversibility reactions g2 st = (Ok out2, st2) /\
    rxns_at st1 (incomplete_mapping out1) = rxns_at st2 (incomplete_mapping out2) /\
    rxns_at st1 (problematic_calculation out1)
      = rxns_at st2 (problematic_calculation out2) /\
    rxns_at st1 (unbalanced out1) = rxns_at st2 (unbalanced out2).
Proof.
  intros Hwf.
  destruct (find_summary reactions g1 st Hwf) as (out1 & st1 & Hrun1 & Hret1).
  destruct (find_summary reactions g2 st Hwf) as (out2 & st2 & Hrun2 & Hret2).
  exists out1, st1, out2, st2. split; [done|]. split; [done|].
  unfold returned in Hret1, Hret2. cbn [fmap list_fmap] in Hret1, Hret2.
  injection Hret1 as _ -> -> ->. injection Hret2 as _ -> -> ->.
  split_and!; apply list_filter_iff; intros rxn; by apply classify_lngamma.
Qed.

(** X9.  Reactions are judged one by one: for a list that is the
    concatenation of two others, each returned list is the one returned for
    the first followed by the one returned for the second. *)
Theorem find_distributes_over_concatenation r rx ry lngamma st :
  rxns_at st r = rxns_at st rx ++ rxns_at st ry ->
  Forall (wf_rxn (str_lists st)) (rxns_at st r) ->
  exists out st' outx stx outy sty,
    find_incorrect_thermodynamic_reversibility r lngamma st = (Ok out, st') /\
    find_incorrect_thermodynamic_reversibility rx lngamma st = (Ok outx, stx) /\
    find_incorrect_thermodynamic_reversibility ry lngamma st = (Ok outy, sty) /\
    returned st' out = zip_with app (returned stx outx) (returned sty outy).
Proof.
  intros Hr Hwf. pose proof Hwf as Hwf'. rewrite Hr in Hwf'.
  apply Forall_app in Hwf' as [Hwx Hwy].
  destruct (find_summary r lngamma st Hwf) as (out & st' & Hrun & Hret).
  destruct (find_summary rx lngamma st Hwx) as (outx & stx & Hrunx & Hretx).
  destruct (find_summary ry lngamma st Hwy) as (outy & sty & Hruny & Hrety).
  exists out, st', outx, stx, outy, sty. split_and!; [done..|].
  rewrite Hret, Hretx, Hrety, Hr. cbn [fmap list_fmap zip_with].
  by rewrite !filter_app.
Qed.

Lemma outcome_filters_perm (f : Rxn.t -> outcome) (xs : list Rxn.t) :
  concat ((fun o => filter (fun r => f r = o) xs)
            <$> [IncorrectReversibility; IncompleteMapping;
                 ProblematicCalculation; Unbalanced])
  ++ filter (fun r => f r = Agrees) xs ≡ₚ xs.
Proof.
  cbn [fmap list_fmap concat]. rewrite app_nil_r.
  induction xs as [|x xs IH]; [done|]. rewrite !filter_cons.
  etrans; [|apply Permutation_skip; exact IH].
  destruct (f x) eqn:Hf; repeat case_decide; try done; cbn [app];
    rewrite <- ?(assoc_L (++)); cbn [app];
    rewrite <- ?Permutation_middle; by rewrite <- ?(assoc_L (++)).
Qed.

(** X10.  Nothing is lost and nothing is counted twice: the four returned
    lists, together with reactions that all agree with the estimate, are a
    rearrangement of the input list. *)
Theorem every_reaction_is_accounted_for reactions lngamma st :
  Forall (wf_rxn (str_lists st)) (rxns_at st reactions) ->
  exists out st' rest,
    find_incorrect_thermodynamic_reversibility reactions lngamma st
      = (Ok out, st') /\
    concat (returned st' out) ++ rest ≡ₚ rxns_at st reactions /\
    Forall (agrees st lngamma) rest.
Proof.
  intros Hwf.
  destruct (find_summary reactions lngamma st Hwf) as (out & st' & Hrun & Hret).
  exists out, st',
    (filter (fun r => classify (str_lists st) lngamma r = Agrees)
            (rxns_at st reactions)).
  split; [done|]. split; [rewrite Hret; apply outcome_filters_perm|].
  apply Forall_forall. intros rxn [Hc Hin]%list_elem_of_filter.
  apply classify_agrees; [|done]. by eapply Forall_forall in Hwf.
Qed.

Lemma classify_flipped st g rxn :
  wf_rxn (str_lists st) rxn ->
  classify (str_lists st) g (flipped rxn)
  = match classify (str_lists st) g rxn with
    | IncorrectReversibility => Agrees
    | Agrees => IncorrectReversibility
    | o => o
    end.
Proof.
  intros Hwf. rewrite !classify_parsed by done.
  change (parsed st (flipped rxn)) with (parsed st rxn).
  destruct (parsed st rxn) as [eq_rxn|]; [|done].
  destruct (check_full_reaction_balancing eq_rxn); [|done].
  destruct (reversibility_index eq_rxn) as [v|]; [|done].
  cbn [flipped Rxn.reversibility].
  by destruct (index_lt v g), (Rxn.reversibility rxn).
Qed.

(** X11.  The annotated reversibility matters in the last stage only.  A
    reaction and its twin with the other reversibility are together in, or
    together out of, each of [incomplete_mapping], [problematic_calculation]
    and [unbalanced]; and when the stages succeed, exactly one of the two is in
    [incorrect_reversibility]. *)
Theorem flipped_twin reactions lngamma st rxn :
  Forall (wf_rxn (str_lists st)) (rxns_at st reactions) ->
  rxn ∈ rxns_at st reactions ->
  flipped rxn ∈ rxns_at st reactions ->
  exists out st',
    find_incorrect_thermodynamic_reversibility reactions lngamma st
      = (Ok out, st') /\
    (rxn ∈ rxns_at st' (incomplete_mapping out) <->
       flipped rxn ∈ rxns_at st' (incomplete_mapping out)) /\
    (rxn ∈ rxns_at st' (problematic_calculation out) <->
       flipped rxn ∈ rxns_at st' (problematic_calculation out)) /\
    (rxn ∈ rxns_at st' (unbalanced out) <->
       flipped rxn ∈ rxns_at st' (unbalanced out)) /\
    (forall eq_rxn ln_RI,
       parsed st rxn = Ok eq_rxn ->
       check_full_reaction_balancing eq_rxn = true ->
       reversibility_index eq_rxn = Ok ln_RI ->
       rxn ∈ rxns_at st' (incorrect_reversibility out) <->
       flipped rxn ∉ rxns_at st' (incorrect_reversibility out)).
Proof.
  intros Hwf Hin Hin'.
  destruct (find_lists reactions lngamma st Hwf) as (out & st' & Hrun & Hb).
  exists out, st'. split; [done|].
  assert (wf_rxn (str_lists st) rxn) as Hr by (by eapply Forall_forall in Hwf).
  pose proof (classify_flipped st lngamma rxn Hr) as Hfl.
  assert (forall o l, bucket_of out o = Some l ->
            o <> IncorrectReversibility ->
            rxn ∈ rxns_at st' l <-> flipped rxn ∈ rxns_at st' l) as Hsame.
  { intros o l Hl Ho.
    rewrite (Hb rxn Hin o l Hl), (Hb (flipped rxn) Hin' o l Hl), Hfl.
    destruct (classify _ _ rxn), o; done. }
  split_and!; [by apply (Hsame IncompleteMapping)
              |by apply (Hsame ProblematicCalculation)
              |by apply (Hsame Unbalanced)|].
  intros eq_rxn ln_RI He Hbal Hri.
  rewrite (Hb rxn Hin IncorrectReversibility _ eq_refl),
    (Hb (flipped rxn) Hin' IncorrectReversibility _ eq_refl), Hfl.
  rewrite classify_parsed, He, Hbal, Hri by done.
  destruct (negb _); split; done.
Qed.

End MoreFind.

(** ** The theorems at work on the model of [Demo] *)

Import Demo.

Ltac in_list := repeat first [apply list_elem_of_here | apply list_elem_of_further].


Lemma model_wf : Forall (wf_rxn (str_lists st1)) (rxns_at st1 0).
Proof. apply (bool_decide_unpack _). vm_compute. exact I. Defined.

(** Entries with equal keys stay in their order; the argument is untouched. *)
Example smallest_compound_ID_stable :
  exists st',
    smallest_compound_ID 1 st0 = (Ok 4%nat, st') /\
    strs_at st' 4 = ["CC9"; "C00009"; "C0_9"]%string /\
    strs_at st' 1 = strs_at st0 1.
Proof. eexists. split; [reflexivity|]. split; reflexivity. Qed.

Example smallest_compound_ID_ascending :
  exists st',
    smallest_compound_ID 0 st0 = (Ok 4%nat, st') /\
    strs_at st' 4 = ["C00002"; "C00008"]%string /\
    strs_at st' 0 = ["D00001"; "C00008"; "C00002"; "G00010"]%string.
Proof. eexists. split; [reflexivity|]. split; reflexivity. Qed.

(** The whole pass over [model]. *)
Example find_on_model :
  exists st',
    find_incorrect_thermodynamic_reversibility 0 3 st1 = (Ok (result_locs 1), st') /\
    returned st' (result_locs 1)
    = [[r_wrong; r_wrong]; [r_unmapped; r_chebi]; [r_nodG]; [r_unbalanced]] /\
    rxns_at st' 0 = model.
Proof. eexists. split; [vm_compute; reflexivity|]. split; reflexivity. Qed.

(** C1 as stated fails: a reaction that passes all three stages and whose
    annotated reversibility agrees with the estimate is in no returned list. *)
Lemma each_reaction_in_exactly_one_list_fails :
  exists out st',
    find_incorrect_thermodynamic_reversibility 0 3 st_ok = (Ok out, st') /\
    r_ok ∈ rxns_at st_ok 0 /\
    ~ in_exactly_one r_ok (returned st' out).
Proof.
  eexists _, _. split; [vm_compute; reflexivity|]. split.
  - apply list_elem_of_here.
  - intros (i & l & Hl & Hin & _). cbn in Hl.
    do 4 (destruct i as [|i]; [injection Hl as <-; by apply elem_of_nil in Hin|]).
    done.
Qed.

Lemma r_ok_agrees : agrees st1 3 r_ok.
Proof. eexists _, _. vm_compute. repeat split. Defined.

Lemma r_wrong_disagrees : ~ agrees st1 3 r_wrong.
Proof.
  intros (eq_rxn & ln_RI & Hp & Hb & Hri & Hlt).
  vm_compute in Hp. injection Hp as <-. vm_compute in Hri.
  injection Hri as <-. vm_compute in Hlt. discriminate.
Defined.

Lemma each_reaction_in_at_most_one_list_witness :
  Forall (wf_rxn (str_lists st1)) (rxns_at st1 0) /\
  exists out st',
    find_incorrect_thermodynamic_reversibility 0 3 st1 = (Ok out, st') /\
    (forall l, l ∈ returned st' out -> r_ok ∉ l) /\
    in_exactly_one r_wrong (returned st' out).
Proof.
  split; [exact model_wf|].
  destruct (each_reaction_in_at_most_one_list 0 3 st1 model_wf)
    as (out & st' & Hrun & H).
  exists out, st'. split; [exact Hrun|]. split.
  - apply (H r_ok); [in_list | exact r_ok_agrees].
  - apply (H r_wrong); [in_list | exact r_wrong_disagrees].
Defined.

Lemma stage_failures_are_routed_witness :
  Forall (wf_rxn (str_lists st1)) (rxns_at st1 0) /\
  exists out st',
    find_incorrect_thermodynamic_reversibility 0 3 st1 = (Ok out, st') /\
    r_unmapped ∈ rxns_at st' (incomplete_mapping out) /\
    (r_unmapped ∉ rxns_at st' (unbalanced out)) /\
    r_unbalanced ∈ rxns_at st' (unbalanced out) /\
    r_nodG ∈ rxns_at st' (problematic_calculation out).
Proof.
  split; [exact model_wf|].
  destruct (stage_failures_are_routed 0 3 st1 model_wf)
    as (out & st' & Hrun & H).
  exists out, st'. split; [exact Hrun|]. split_and!.
  - apply (H r_unmapped); [in_list|]. eexists. vm_compute. reflexivity.
  - apply (H r_unmapped); [in_list|]. eexists. vm_compute. reflexivity.
  - eapply (H r_unbalanced); [in_list| |]; vm_compute; reflexivity.
  - eapply (H r_nodG); [in_list| | |]; vm_compute; reflexivity.
Defined.

Lemma incorrect_iff_verdict_differs_witness :
  Forall (wf_rxn (str_lists st1)) (rxns_at st1 0) /\
  exists out st',
    find_incorrect_thermodynamic_reversibility 0 3 st1 = (Ok out, st') /\
    r_wrong ∈ rxns_at st' (incorrect_reversibility out) /\
    (forall l, l ∈ returned st' out -> r_ok ∉ l).
Proof.
  split; [exact model_wf|].
  destruct (incorrect_iff_verdict_differs 0 3 st1 model_wf)
    as (out & st' & Hrun & H).
  exists out, st'. split; [exact Hrun|]. split.
  - eapply (H r_wrong); [in_list|vm_compute; reflexivity..|].
    vm_compute. discriminate.
  - eapply (H r_ok); [in_list|vm_compute; reflexivity..].
Defined.

Lemma result_lists_partition_a_subsequence_witness :
  Forall (wf_rxn (str_lists st1)) (rxns_at st1 0) /\
  exists out st',
    find_incorrect_thermodynamic_reversibility 0 3 st1 = (Ok out, st') /\
    Forall (fun l => l `sublist_of` model) (returned st' out) /\
    concat (returned st' out) ⊆+ model.
Proof.
  split; [exact model_wf|].
  destruct (result_lists_partition_a_subsequence 0 3 st1 model_wf)
    as (out & st' & Hrun & Hsub & Hms & _).
  exists out, st'. split; [exact Hrun|]. split; [exact Hsub | exact Hms].
Defined.

Example chebi_entry :
  has_C "CHEBI:17234" = true /\ cid_key "CHEBI:17234" = None /\
  PyStr.int_chars (PyStr.lstrip "C" "CHEBI:17234") = false /\
  has_C "CHEBI:15377" = true /\ cid_key "CHEBI:15377" = None.
Proof. repeat split. Qed.

(** The limit of [int] on a compound ID: with the default limit an identifier
    of 4300 digits has a key, one of 4301 digits has none. *)
Example long_compound_id :
  let cid n := String "C" (String.concat "" (replicate n "1"%string)) in
  (kegg_shaped (cid 4301%nat), kegg_identifier (cid 4301%nat),
   cid_key (cid 4301%nat), kegg_identifier (cid 4300%nat),
   bool_decide (is_Some (cid_key (cid 4300%nat))))
  = (true, false, None, true, true).
Proof. vm_compute. reflexivity. Qed.

Lemma mapping_exceptions_are_caught_witness :
  Forall (wf_rxn (str_lists st1)) (rxns_at st1 0) /\
  exists out st',
    find_incorrect_thermodynamic_reversibility 0 3 st1 = (Ok out, st') /\
    rxns_at st' (incomplete_mapping out) = [r_unmapped; r_chebi] /\
    mapped_formula st1 r_chebi = Raise ValueError /\
    (r_chebi ∉ rxns_at st' (unbalanced out)) /\
    (r_ok ∉ rxns_at st' (incomplete_mapping out)).
Proof.
  split; [exact model_wf|].
  destruct (mapping_exceptions_are_caught 0 3 st1 model_wf)
    as (out & st' & Hrun & Heq & H).
  exists out, st'. split; [exact Hrun|]. split; [exact Heq|].
  destruct (H r_chebi) as (_ & Hin & _ & _ & Hbad); [in_list|].
  destruct (H r_ok) as (_ & _ & Hout & _); [in_list|].
  split_and!.
  - apply (Hbad chebi 3%nat "CHEBI:15377"%string);
      [in_list | reflexivity | unfold strs_at; cbn; in_list
      | reflexivity | reflexivity].
  - apply Hin. reflexivity.
  - apply Hout. reflexivity.
Defined.

(** C6 as stated fails in what it says of the [ValueError]: the entry [C-7]
    contains ['C'] and is not ['C'] followed by digits, yet [int] reads [-7]
    in it; nothing is raised, [C-7] is the smallest compound ID of the list,
    and the reaction is not in [incomplete_mapping]. *)
Lemma non_digit_entry_raises_fails :
  adp ∈ Rxn.metabolites r_ok /\
  Met.annotation adp !! "kegg.compound"%string = Some (AnnList 0) /\
  "C-7"%string ∈ strs_at st_signed 0 /\
  has_C "C-7" = true /\ c_then_digits "C-7" = false /\
  (exists st', smallest_compound_ID 0 st_signed = (Ok 1%nat, st') /\
               strs_at st' 1 = ["C-7"; "C00008"]%string) /\
  mapped_formula st_signed r_ok = Ok "C00002 + C00001 <=> C-7"%string /\
  exists out st',
    find_incorrect_thermodynamic_reversibility 0 3 st_signed = (Ok out, st') /\
    r_ok ∈ rxns_at st_signed 0 /\
    (r_ok ∉ rxns_at st' (incomplete_mapping out)).
Proof.
  split_and!; [in_list | reflexivity | unfold strs_at; cbn; in_list
              | reflexivity | reflexivity | | reflexivity |].
  - eexists. split; reflexivity.
  - eexists _, _. split; [vm_compute; reflexivity|].
    split; [apply list_elem_of_here|]. apply not_elem_of_nil.
Qed.

(** C7 as stated fails: an entry with a ['C'] that is not leading is kept by
    the filter, and then no list is returned. *)
Lemma smallest_compound_ID_returns_fails :
  "CHEBI:15377"%string ∈ strs_at st0 3 /\
  has_C "CHEBI:15377" = true /\
  ~ exists l' st', smallest_compound_ID 3 st0 = (Ok l', st').
Proof.
  split_and!; [unfold strs_at; cbn; in_list | reflexivity |].
  intros (l' & st' & Hrun). vm_compute in Hrun. discriminate.
Qed.

Lemma smallest_compound_ID_sorts_or_raises_witness :
  (exists l' st',
     smallest_compound_ID 0 st0 = (Ok l', st') /\
     strs_at st' l' ≡ₚ ["C00008"; "C00002"]%string /\
     StronglySorted cid_le (strs_at st' l')) /\
  (exists st', smallest_compound_ID 3 st0 = (Raise ValueError, st')).
Proof.
  split.
  - destruct (smallest_compound_ID_sorts_or_raises 0 st0) as (Hok & _ & _).
    destruct Hok as (l' & st' & Hrun & Hperm & Hsort & _).
    { apply (bool_decide_unpack _). vm_compute. exact I. }
    exists l', st'. split_and!; [exact Hrun | exact Hperm | exact Hsort].
  - destruct (smallest_compound_ID_sorts_or_raises 3 st0) as (_ & Hraise & _).
    apply Hraise. intros Hall. apply (bool_decide_pack _) in Hall.
    vm_compute in Hall. exact Hall.
Defined.



Lemma two_runs_return_the_same_lists_witness :
  Forall (wf_rxn (str_lists st1)) (rxns_at st1 0) /\
  (0 < length (rxn_lists st1))%nat /\
  exists out1 st1' out2 st2,
    find_incorrect_thermodynamic_reversibility 0 3 st1 = (Ok out1, st1') /\
    find_incorrect_thermodynamic_reversibility 0 3 st1' = (Ok out2, st2) /\
    returned st2 out2 = returned st1' out1.
Proof.
  split; [exact model_wf|]. split; [cbn; lia|].
  destruct (two_runs_return_the_same_lists 0 3 st1 model_wf)
    as (out1 & st1' & out2 & st2 & H1 & H2 & Heq & _); [cbn; lia|].
  exists out1, st1', out2, st2. split_and!; [exact H1 | exact H2 | exact Heq].
Defined.

Example unmatched_metabolite_is_skipped_at_nad :
  Rxn.metabolites r_nad = [atp] ++ nad :: [adp] /\
  wf_met (str_lists st0) nad /\
  no_usable_annotation st0 nad /\
  name_lookup_fails nad /\
  map_metabolite nad "atp_c + nad_c --> adp_c" st0
    = (Ok "atp_c + nad_c --> adp_c"%string, st0) /\
  get_equilibrator_rxn_string r_nad st0
  = get_equilibrator_rxn_string
      (Rxn.Build "atp_c + nad_c --> adp_c" [atp; adp] false) st0.
Proof.
  assert (wf_met (str_lists st0) nad) as Hwf by (vm_compute; lia).
  assert (no_usable_annotation st0 nad) as Hann by reflexivity.
  assert (name_lookup_fails nad) as Hname by exact I.
  split_and!; [reflexivity | exact Hwf | exact Hann | exact Hname | |].
  - apply (unmatched_metabolite_is_skipped r_nad [atp] nad [adp] st0);
      [reflexivity | exact Hwf | exact Hann | exact Hname | done].
  - apply (unmatched_metabolite_is_skipped r_nad [atp] nad [adp] st0);
      [reflexivity | exact Hwf | exact Hann | exact Hname].
Defined.

(** C10 fails on [r_nadh]: [nadh_c] has no usable annotation and an empty
    name, so it is skipped, but the replacement made for [h_c] rewrites the
    end of its id, and the returned string no longer holds [nadh_c]. *)
Theorem skipped_id_is_overwritten :
  nadh ∈ Rxn.metabolites r_nadh /\
  no_usable_annotation st0 nadh /\
  Met.name nadh = Some ""%string /\
  mapped_formula st0 r_nadh = Ok "C00080 + nadC00080 -> nad_c"%string /\
  PyStr.str_in "nadh_c" "C00080 + nadC00080 -> nad_c" = false.
Proof. split_and!; [in_list | exact I | reflexivity..]. Qed.

(** *** The further properties on the model *)

Lemma smallest_compound_ID_on_kegg_ids_witness :
  Forall (fun x => kegg_identifier x = true) (strs_at st0 0) /\
  exists l' st',
    smallest_compound_ID 0 st0 = (Ok l', st') /\
    strs_at st' l' ≡ₚ ["C00008"; "C00002"]%string /\
    StronglySorted (fun a b => (kegg_number a <= kegg_number b)%Z)
                   (strs_at st' l').
Proof.
  assert (Forall (fun x => kegg_identifier x = true) (strs_at st0 0)) as Hk.
  { repeat constructor. }
  split; [exact Hk|]. exact (smallest_compound_ID_on_kegg_ids 0 st0 Hk).
Defined.

Lemma smallest_compound_ID_idempotent_witness :
  exists st1 l2 st2,
    smallest_compound_ID 0 st0 = (Ok 4%nat, st1) /\
    smallest_compound_ID 4 st1 = (Ok l2, st2) /\
    strs_at st2 l2 = strs_at st1 4.
Proof.
  eexists. 
  destruct (smallest_compound_ID_idempotent 0 st0 4 _ eq_refl)
    as (l2 & st2 & Hrun & Heq).
  exists l2, st2. split; [reflexivity|]. split; [exact Hrun | exact Heq].
Defined.

Lemma r_chebi_wf : wf_rxn (str_lists st0) r_chebi.
Proof. apply (bool_decide_unpack _). vm_compute. exact I. Defined.

Lemma r_ok_wf : wf_rxn (str_lists st0) r_ok.
Proof. apply (bool_decide_unpack _). vm_compute. exact I. Defined.

Lemma rxn_string_raises_iff_witness :
  wf_rxn (str_lists st0) r_chebi /\
  (mapped_formula st0 r_chebi = Raise ValueError ->
   exists met l x,
     met ∈ Rxn.metabolites r_chebi /\
     Met.annotation met !! "kegg.compound"%string = Some (AnnList l) /\
     x ∈ strs_at st0 l /\ has_C x = true /\ cid_key x = None).
Proof.
  split; [exact r_chebi_wf|]. intros Hr.
  apply (rxn_string_raises_iff r_chebi st0 ValueError r_chebi_wf) in Hr.
  exact (proj2 Hr).
Defined.

Lemma kegg_annotations_never_raise_witness :
  wf_rxn (str_lists st0) r_ok /\
  Forall (kegg_annotated st0) (Rxn.metabolites r_ok) /\
  exists s, mapped_formula st0 r_ok = Ok s.
Proof.
  assert (Forall (kegg_annotated st0) (Rxn.metabolites r_ok)) as Hk.
  { repeat constructor. }
  split; [exact r_ok_wf|]. split; [exact Hk|].
  exact (kegg_annotations_never_raise r_ok st0 r_ok_wf Hk).
Defined.

Lemma unmapped_reaction_only_rewrites_arrows_witness :
  Rxn.reaction r_unmappable = String.concat " " ["glc_c"; "-->"; "nad_c"]%string /\
  Forall arrow_free ["glc_c"; "-->"; "nad_c"]%string /\
  Forall (fun met => no_usable_annotation st0 met /\ name_lookup_fails met)
         (Rxn.metabolites r_unmappable) /\
  get_equilibrator_rxn_string r_unmappable st0
  = (Ok "glc_c -> nad_c"%string, st0).
Proof.
  assert (Forall arrow_free ["glc_c"; "-->"; "nad_c"]%string) as Hfree.
  { repeat constructor; solve [by left | by right]. }
  assert (Forall (fun met => no_usable_annotation st0 met /\ name_lookup_fails met)
                 (Rxn.metabolites r_unmappable)) as Hskip.
  { repeat constructor. }
  split; [reflexivity|]. split; [exact Hfree|]. split; [exact Hskip|].
  exact (unmapped_reaction_only_rewrites_arrows r_unmappable st0
           ["glc_c"; "-->"; "nad_c"]%string eq_refl Hfree Hskip).
Defined.

Lemma metabolite_order_is_irrelevant_witness :
  wf_rxn (str_lists st0) r_ok /\
  Rxn.reaction r_ok = String.concat " " ["atp_c"; "+"; "h2o_c"; "<=>"; "adp_c"]%string /\
  Forall (fun met => plain_id (Met.id met)) (Rxn.metabolites r_ok) /\
  whole_tokens ["atp_c"; "+"; "h2o_c"; "<=>"; "adp_c"]%string (Rxn.metabolites r_ok) /\
  apart_all (str_lists st0) (Rxn.metabolites r_ok) /\
  NoDup (Met.id <$> Rxn.metabolites r_ok) /\
  Rxn.metabolites r_ok ≡ₚ [adp; atp; h2o] /\
  mapped_formula st0 (with_metabolites r_ok [adp; atp; h2o])
  = mapped_formula st0 r_ok.
Proof.
  assert (Forall (fun met => plain_id (Met.id met)) (Rxn.metabolites r_ok))
    as Hid.
  { repeat constructor; discriminate. }
  assert (whole_tokens ["atp_c"; "+"; "h2o_c"; "<=>"; "adp_c"]%string
            (Rxn.metabolites r_ok)) as Htok.
  { repeat constructor; solve [by left | by right]. }
  assert (apart_all (str_lists st0) (Rxn.metabolites r_ok)) as Hap.
  { unfold apart_all. cbn [Rxn.metabolites r_ok].
    repeat first [apply Forall_nil_2 | apply Forall_cons_2];
      intros k Hk; vm_compute in Hk; injection Hk as <-; repeat constructor. }
  assert (NoDup (Met.id <$> Rxn.metabolites r_ok)) as Hnd.
  { apply (bool_decide_unpack _). vm_compute. exact I. }
  assert (Rxn.metabolites r_ok ≡ₚ [adp; atp; h2o]) as Hp.
  { cbn [Rxn.metabolites r_ok]. symmetry.
    apply (Permutation_cons_append [atp; h2o] adp). }
  split_and!; [exact r_ok_wf | reflexivity | exact Hid | exact Htok | exact Hap
              | exact Hnd | exact Hp |].
  exact (metabolite_order_is_irrelevant r_ok [adp; atp; h2o] st0
           ["atp_c"; "+"; "h2o_c"; "<=>"; "adp_c"]%string
           r_ok_wf eq_refl Hid Htok Hap Hnd Hp).
Defined.

Lemma lngamma_only_decides_incorrect_witness :
  Forall (wf_rxn (str_lists st1)) (rxns_at st1 0) /\
  exists out1 st1' out2 st2,
    find_incorrect_thermodynamic_reversibility 0 3 st1 = (Ok out1, st1') /\
    find_incorrect_thermodynamic_reversibility 0 (-5) st1 = (Ok out2, st2) /\
    rxns_at st1' (incomplete_mapping out1) = rxns_at st2 (incomplete_mapping out2) /\
    rxns_at st1' (unbalanced out1) = rxns_at st2 (unbalanced out2).
Proof.
  split; [exact model_wf|].
  destruct (lngamma_only_decides_incorrect 0 3 (-5) st1 model_wf)
    as (out1 & st1' & out2 & st2 & H1 & H2 & Him & _ & Hub).
  exists out1, st1', out2, st2.
  split; [exact H1|]. split; [exact H2|]. split; [exact Him | exact Hub].
Defined.

Lemma st_split_wf : Forall (wf_rxn (str_lists st_split)) (rxns_at st_split 0).
Proof. apply (bool_decide_unpack _). vm_compute. exact I. Defined.

Lemma find_distributes_over_concatenation_witness :
  rxns_at st_split 0 = rxns_at st_split 1 ++ rxns_at st_split 2 /\
  Forall (wf_rxn (str_lists st_split)) (rxns_at st_split 0) /\
  exists out st' outx stx outy sty,
    find_incorrect_thermodynamic_reversibility 0 3 st_split = (Ok out, st') /\
    find_incorrect_thermodynamic_reversibility 1 3 st_split = (Ok outx, stx) /\
    find_incorrect_thermodynamic_reversibility 2 3 st_split = (Ok outy, sty) /\
    returned st' out = zip_with app (returned stx outx) (returned sty outy).
Proof.
  split; [reflexivity|]. split; [exact st_split_wf|].
  exact (find_distributes_over_concatenation 0 1 2 3 st_split eq_refl st_split_wf).
Defined.

Lemma every_reaction_is_accounted_for_witness :
  Forall (wf_rxn (str_lists st1)) (rxns_at st1 0) /\
  exists out st' rest,
    find_incorrect_thermodynamic_reversibility 0 3 st1 = (Ok out, st') /\
    concat (returned st' out) ++ rest ≡ₚ model /\
    Forall (agrees st1 3) rest.
Proof.
  split; [exact model_wf|].
  exact (every_reaction_is_accounted_for 0 3 st1 model_wf).
Defined.

Lemma flipped_twin_witness :
  Forall (wf_rxn (str_lists st1)) (rxns_at st1 0) /\
  r_ok ∈ rxns_at st1 0 /\
  flipped r_ok ∈ rxns_at st1 0 /\
  exists out st',
    find_incorrect_thermodynamic_reversibility 0 3 st1 = (Ok out, st') /\
    (r_ok ∈ rxns_at st' (incorrect_reversibility out) <->
     flipped r_ok ∉ rxns_at st' (incorrect_reversibility out)).
Proof.
  assert (r_ok ∈ rxns_at st1 0) as Hin by in_list.
  assert (flipped r_ok ∈ rxns_at st1 0) as Hin' by apply list_elem_of_here.
  split; [exact model_wf|]. split; [exact Hin|]. split; [exact Hin'|].
  destruct (flipped_twin 0 3 st1 r_ok model_wf Hin Hin')
    as (out & st' & Hrun & _ & _ & _ & Hir).
  exists out, st'. split; [exact Hrun|].
  eapply Hir; vm_compute; reflexivity.
Defined.
